(** * Hive public-API mapper: a shallow embedding of [hive_api_map.py]

    The script walks [<root>/libs/hive/Sources], scans every [*.swift] file
    line by line against the regular expression [PUBLIC_DECL_RE], removes
    duplicate [(kind, name)] pairs per module, sorts what is left and prints
    a bounded Markdown listing.

    Python strings are sequences of Unicode code points; a character is
    modelled by its code point (an [N]) and a string by a list of them.  The
    classes the [re] module and [str] consult are given by their code points
    where they are finite ([\s], the line boundaries of [str.splitlines]);
    the alphanumeric class behind [\w] is given exactly up to U+00FF and by
    a section variable above it, and [str.lower] is given exactly on ASCII
    and by a section variable elsewhere. *)

From Stdlib Require Import NArith String Ascii DecimalString.
From stdpp Require Import base decidable option list sorting gmap.

Local Open Scope N_scope.

(** ** Text *)

Abbreviation char := N (only parsing).
Abbreviation str := (list N) (only parsing).

(** A source literal, character by character. *)
Definition lit (s : string) : str := N_of_ascii <$> list_ascii_of_string s.

Definition in_range (lo hi c : N) : bool := (lo <=? c) && (c <=? hi).

Definition is_upper_ascii (c : N) : bool := in_range 65 90 c.
Definition is_lower_ascii (c : N) : bool := in_range 97 122 c.
Definition is_digit_ascii (c : N) : bool := in_range 48 57 c.

(** [[A-Za-z_]] *)
Definition is_ident_start (c : N) : bool :=
  is_upper_ascii c || is_lower_ascii c || (c =? 95).

(** [[A-Za-z0-9_]], the class the pattern would use under [re.ASCII]. *)
Definition is_ident_ascii (c : N) : bool := is_ident_start c || is_digit_ascii c.

(** [\s] on a [str] pattern: the characters for which [str.isspace] holds. *)
Definition is_space (c : N) : bool :=
  in_range 0x09 0x0D c || in_range 0x1C 0x20 c || (c =? 0x85) || (c =? 0xA0)
  || (c =? 0x1680) || in_range 0x2000 0x200A c || (c =? 0x2028) || (c =? 0x2029)
  || (c =? 0x202F) || (c =? 0x205F) || (c =? 0x3000).

(** The line boundaries of [str.splitlines]. *)
Definition is_linebreak (c : N) : bool :=
  in_range 0x0A 0x0D c || in_range 0x1C 0x1E c || (c =? 0x85)
  || (c =? 0x2028) || (c =? 0x2029).

(** The alphanumeric characters ([str.isalnum]) of the Latin-1 supplement:
    feminine and masculine ordinal, micro sign, superscript digits, vulgar
    fractions and the letters. *)
Definition is_alnum_latin1 (c : N) : bool :=
  (c =? 0xAA) || (c =? 0xB2) || (c =? 0xB3) || (c =? 0xB5) || (c =? 0xB9)
  || (c =? 0xBA) || in_range 0xBC 0xBE c || in_range 0xC0 0xD6 c
  || in_range 0xD8 0xF6 c || in_range 0xF8 0xFF c.

Definition is_alnum_ascii (c : N) : bool :=
  is_upper_ascii c || is_lower_ascii c || is_digit_ascii c.

Definition ascii_lower (c : N) : N := if is_upper_ascii c then c + 32 else c.

(** [text.splitlines()]: cut at every line boundary, [\r\n] counting as one,
    boundaries dropped, no empty last line.  [cur] is the current line,
    reversed. *)
Fixpoint splitlines_from (cur : str) (s : str) : list str :=
  match s with
  | [] => match cur with [] => [] | _ => [rev cur] end
  | c :: s' =>
      if is_linebreak c then
        rev cur ::
          match s' with
          | d :: s'' => if (c =? 13) && (d =? 10) then splitlines_from [] s''
                        else splitlines_from [] s'
          | [] => splitlines_from [] s'
          end
      else splitlines_from (c :: cur) s'
  end.

Definition splitlines (text : str) : list str := splitlines_from [] text.

(** Lexicographic comparison of strings by code point, Python's [<] on
    [str]. *)
Fixpoint str_ltb (a b : str) : bool :=
  match a, b with
  | [], [] => false
  | [], _ :: _ => true
  | _ :: _, [] => false
  | x :: a', y :: b' => (x <? y) || ((x =? y) && str_ltb a' b')
  end.

(** [sep.join(parts)] *)
Fixpoint join (sep : str) (parts : list str) : str :=
  match parts with
  | [] => []
  | [p] => p
  | p :: ps => p ++ sep ++ join sep ps
  end.

(** Decimal rendering of an integer in an f-string. *)
Definition str_of_nat (n : nat) : str := lit (NilEmpty.string_of_uint (Nat.to_uint n)).

(** ** The regular expressions the script needs

    A backtracking matcher in continuation-passing style, alternatives
    tried left to right and repetitions greedy, as [re] does.  Repetition
    is only needed over one-character classes. *)

Inductive regex : Type :=
| RBol                                   (* ^ *)
| RLit (s : str)                         (* literal text *)
| RSet (p : N -> bool)                   (* one character of a class *)
| RStar (p : N -> bool)                  (* class*, greedy *)
| RPlus (p : N -> bool)                  (* class+, greedy *)
| RSeq (r1 r2 : regex)
| RAlt (r1 r2 : regex)
| ROpt (r : regex)                       (* (?:r)?, greedy *)
| RGroup (i : nat) (r : regex).          (* capturing group number i *)

(** Captured groups: group number to captured text. *)
Abbreviation groups := (gmap nat (list N)) (only parsing).

Fixpoint strip_prefix (p s : str) : option str :=
  match p, s with
  | [], _ => Some s
  | _ :: _, [] => None
  | x :: p', y :: s' => if x =? y then strip_prefix p' s' else None
  end.

Section Matcher.
Context {R : Type}.
(** Length of the whole subject, to recognise its start. *)
Variable total : nat.

(** Greedy [p*]: take the longest run first, give back one character at a
    time while the continuation fails. *)
Fixpoint match_star (p : N -> bool) (s : str) (k : str -> option R) : option R :=
  match s with
  | c :: s' =>
      if p c then
        match match_star p s' k with
        | Some r => Some r
        | None => k s
        end
      else k s
  | [] => k []
  end.

Fixpoint rmatch (r : regex) (s : str) (g : groups)
    (k : str -> groups -> option R) : option R :=
  match r with
  | RBol => if Nat.eqb (length s) total then k s g else None
  | RLit l => match strip_prefix l s with Some s' => k s' g | None => None end
  | RSet p => match s with
              | c :: s' => if p c then k s' g else None
              | [] => None
              end
  | RStar p => match_star p s (fun s' => k s' g)
  | RPlus p => match s with
               | c :: s' => if p c then match_star p s' (fun s'' => k s'' g) else None
               | [] => None
               end
  | RSeq r1 r2 => rmatch r1 s g (fun s' g' => rmatch r2 s' g' k)
  | RAlt r1 r2 => match rmatch r1 s g k with
                  | Some x => Some x
                  | None => rmatch r2 s g k
                  end
  | ROpt r1 => match rmatch r1 s g k with
               | Some x => Some x
               | None => k s g
               end
  | RGroup i r1 =>
      rmatch r1 s g
        (fun s' g' => k s' (<[i := take (length s - length s') s]> g'))
  end.
End Matcher.

(** [pattern.match(subject)]: a match starting at the first character, the
    first one in backtracking order, as its groups. *)
Definition re_match (r : regex) (subject : str) : option groups :=
  rmatch (length subject) r subject ∅ (fun _ g => Some g).

(** [m.group(i)] for a group that took part in the match. *)
Definition group (m : groups) (i : nat) : str := default [] (m !! i).

Definition KINDS : list str :=
  lit "struct" :: lit "enum" :: lit "protocol" :: lit "class" :: lit "actor"
  :: lit "typealias" :: lit "func" :: lit "var" :: lit "let" :: [].

(** [a|b|...] *)
Fixpoint alternatives (ws : list str) : regex :=
  match ws with
  | [] => RSet (fun _ => false)
  | [w] => RLit w
  | w :: ws' => RAlt (RLit w) (alternatives ws')
  end.

Section Unicode.
(** [str.isalnum] above U+00FF, from the Unicode character database. *)
Variable unicode_alnum : N -> bool.

Definition is_alnum (c : N) : bool :=
  if c <? 0x80 then is_alnum_ascii c
  else if c <? 0x100 then is_alnum_latin1 c
  else unicode_alnum c.

(** [\w] on a [str] pattern: alphanumeric or underscore. *)
Definition is_word (c : N) : bool := is_alnum c || (c =? 95).

(** The pattern: start of subject, [public], [\s+], optionally [final] and
    [\s+], group 1 one of the nine keywords, [\s+], group 2 a character of
    [[A-Za-z_]] followed by any number of [\w]. *)
Definition PUBLIC_DECL_RE : regex :=
  RSeq RBol
 (RSeq (RLit (lit "public"))
 (RSeq (RPlus is_space)
 (RSeq (ROpt (RSeq (RLit (lit "final")) (RPlus is_space)))
 (RSeq (RGroup 1 (alternatives KINDS))
 (RSeq (RPlus is_space)
       (RGroup 2 (RSeq (RSet is_ident_start) (RStar is_word)))))))).
End Unicode.


(** ** Paths and the file system snapshot

    A path is the list of its segments below the file system root [/];
    [Path.parts] of an absolute path starts with the anchor.  The calls on
    paths are those of [pathlib] in CPython 3.11, on a snapshot that does
    not change during the run. *)

Abbreviation path := (list (list N)) (only parsing).

Definition parts (p : path) : list str := lit "/" :: p.

(** [str(path)] of an absolute and of a relative path. *)
Definition path_str (p : path) : str := lit "/" ++ join (lit "/") p.
Definition rel_str (p : path) : str := join (lit "/") p.

(** [path.name] *)
Definition base_name (p : path) : str := List.last p [].

(** [path.relative_to(other)], [None] standing for its [ValueError]. *)
Fixpoint relative_to (p other : path) : option path :=
  match other, p with
  | [], _ => Some p
  | _ :: _, [] => None
  | o :: other', x :: p' => if decide (x = o) then relative_to p' other' else None
  end.

Inductive os_error : Type :=
| FileNotFoundError | PermissionError | IsADirectoryError | NotADirectoryError.

Inductive exn : Type :=
| OSError (e : os_error)
| UnicodeDecodeError
| ValueError
| SystemExit (msg : str).

(** What [read_text(encoding="utf-8")] does on a file: the decoded text, a
    decoding error, or a failure of the operating system. *)
Inductive read_result : Type :=
| ReadOk (text : str)
| ReadDecodeError
| ReadOSError (e : os_error).

(** A file answers the strict read and the read with [errors="replace"];
    the second cannot fail on decoding.  The two are separate accesses and
    may fail separately. *)
Record file_state : Type := {
  strict_read : read_result;
  replace_read : os_error + str
}.

(** A directory holds its entries in the order in which the system lists
    them, each name once, and answers to the process in two ways: its names
    may or may not be read (listing), and what stands below it may or may not
    be reached (searching).  There are no symbolic links. *)
Inductive node : Type :=
| File (f : file_state)
| Dir (listable searchable : bool) (entries : list (str * node)).

(** How the system resolves a path: it comes to a node, to a name that is
    missing (ENOENT), to something on the way that is not a directory
    (ENOTDIR), or to a directory on the way that may not be searched
    (EACCES). *)
Inductive resolved : Type :=
| Found (n : node)
| NoEntry
| NotDir
| NoAccess.

Fixpoint resolve (n : node) (p : path) {struct n} : resolved :=
  match p with
  | [] => Found n
  | seg :: p' =>
      match n with
      | File _ => NotDir
      | Dir _ x es =>
          if x then
            (fix find (es : list (str * node)) : resolved :=
               match es with
               | [] => NoEntry
               | (nm, c) :: es' => if decide (nm = seg) then resolve c p' else find es'
               end) es
          else NoAccess
      end
  end.

(** [os.stat(path)] *)
Definition stat (fs : node) (p : path) : os_error + node :=
  match resolve fs p with
  | Found n => inr n
  | NoEntry => inl FileNotFoundError
  | NotDir => inl NotADirectoryError
  | NoAccess => inl PermissionError
  end.

(** [_ignore_error] of [pathlib]: the errors that [exists] and [is_dir]
    answer with [False]; any other one goes up. *)
Definition ignore_error (e : os_error) : bool :=
  match e with
  | FileNotFoundError | NotADirectoryError => true
  | PermissionError | IsADirectoryError => false
  end.

(** [path.exists()] *)
Definition path_exists (fs : node) (p : path) : exn + bool :=
  match stat fs p with
  | inr _ => inr true
  | inl e => if ignore_error e then inr false else inl (OSError e)
  end.

(** [path.is_dir()] *)
Definition is_dir (fs : node) (p : path) : exn + bool :=
  match stat fs p with
  | inr (Dir _ _ _) => inr true
  | inr (File _) => inr false
  | inl e => if ignore_error e then inr false else inl (OSError e)
  end.

(** [path.iterdir()], which is [os.listdir]: the directory has to be reached
    and its names have to be readable. *)
Definition iterdir (fs : node) (p : path) : exn + list path :=
  match stat fs p with
  | inr (Dir r _ es) =>
      if r then inr ((fun e => p ++ [e.1]) <$> es) else inl (OSError PermissionError)
  | inr (File _) => inl (OSError NotADirectoryError)
  | inl e => inl (OSError e)
  end.

(** The pattern [*.swift] on a name. *)
Definition glob_swift (nm : str) : bool :=
  bool_decide (is_Some (strip_prefix (rev (lit ".swift")) (rev nm))).

(** The walk of [dir.rglob("*.swift")] below a directory node: the matching
    entries of the directory, then those of each subdirectory in turn.
    Entries of any type are matched by name.  A directory whose names may
    not be read gives nothing and no error ([except PermissionError: return]
    in the selectors of [pathlib]), and so does everything below a directory
    that may not be searched. *)
Fixpoint rglob_node (base : path) (n : node) {struct n} : list path :=
  match n with
  | File _ => []
  | Dir r x es =>
      if r then
        ((fun e => base ++ [e.1]) <$> filter (fun e => glob_swift e.1 = true) es)
        ++ (if x then
              (fix sub (es : list (str * node)) : list path :=
                 match es with
                 | [] => []
                 | (nm, c) :: es' => rglob_node (base ++ [nm]) c ++ sub es'
                 end) es
            else [])
      else []
  end.

(** [dir.rglob("*.swift")], taken as a whole: the selector first asks
    [is_dir(dir)], whose error is not caught, and yields nothing when the
    answer is no. *)
Definition rglob (fs : node) (dir : path) : exn + list path :=
  match is_dir fs dir with
  | inl e => inl e
  | inr false => inr []
  | inr true =>
      inr (match resolve fs dir with
           | Found n => rglob_node dir n
           | _ => []
           end)
  end.

(** [path.read_text(encoding="utf-8")] and the same with
    [errors="replace"]. *)
Definition read_text (fs : node) (p : path) : read_result :=
  match stat fs p with
  | inr (File f) => strict_read f
  | inr (Dir _ _ _) => ReadOSError IsADirectoryError
  | inl e => ReadOSError e
  end.

Definition read_text_replace (fs : node) (p : path) : os_error + str :=
  match stat fs p with
  | inr (File f) => replace_read f
  | inr (Dir _ _ _) => inl IsADirectoryError
  | inl e => inl e
  end.

(** ** Declarations *)

Record Decl : Type := {
  kind : str;
  name : str;
  file : path;
  line : nat
}.

Definition key (d : Decl) : str * str := (kind d, name d).

(** Python's [<] on the key tuples. *)
Definition key_ltb (a b : str * str) : bool :=
  str_ltb a.1 b.1 || (bool_decide (a.1 = b.1) && str_ltb a.2 b.2).

(** [enumerate(xs, start)] *)
Fixpoint enumerate {A} (start : nat) (xs : list A) : list (nat * A) :=
  match xs with
  | [] => []
  | x :: xs' => (start, x) :: enumerate (S start) xs'
  end.

(** A stable sort that compares with [<] only, as [list.sort] and [sorted]
    do: each element is put before the first one that is not smaller. *)
Section Sort.
Context {A K : Type} (ltb : K -> K -> bool) (keyf : A -> K).

Fixpoint insert_sorted (x : A) (l : list A) : list A :=
  match l with
  | [] => [x]
  | y :: l' => if ltb (keyf y) (keyf x) then y :: insert_sorted x l' else x :: l
  end.

Definition sort_by (l : list A) : list A := foldr insert_sorted [] l.

(** [not_after x y]: the order lets [x] stand before [y]. *)
Definition not_after (x y : A) : Prop := ltb (keyf y) (keyf x) = false.
End Sort.

Definition key_lt (a b : list N * list N) : Prop := key_ltb a b = true.

(** The loop of [main] that removes duplicates: one step per declaration,
    on the state [(seen, unique)]. *)
Definition dedupe_step (st : gset (list N * list N) * list Decl) (d : Decl)
    : gset (list N * list N) * list Decl :=
  if decide (key d ∈ st.1) then st
  else ({[key d]} ∪ st.1, st.2 ++ [d]).

Definition dedupe (decls : list Decl) : list Decl :=
  (foldl dedupe_step (∅, []) decls).2.

(** Deduplication followed by [unique.sort(key=lambda d: (d.kind, d.name))]. *)
Definition aggregate (decls : list Decl) : list Decl :=
  sort_by key_ltb key (dedupe decls).

(** ** Printing and exceptions: what was printed, then a value or the
    exception that ended the run. *)

Definition M (A : Type) : Type := list str * (exn + A).

Definition ret {A} (a : A) : M A := ([], inr a).
Definition raise {A} (e : exn) : M A := ([], inl e).
Definition print (s : str) : M unit := ([s], inr tt).
Definition bind {A B} (m : M A) (f : A -> M B) : M B :=
  match m with
  | (out, inl e) => (out, inl e)
  | (out, inr a) => let r := f a in (out ++ r.1, r.2)
  end.
Definition lift {A} (r : exn + A) : M A := ([], r).

Notation "'let*' x ':=' m 'in' k" := (bind m (fun x => k))
  (at level 10, x name, m at level 100, k at level 200).
Notation "m >> k" := (bind m (fun _ => k))
  (at level 90, right associativity).

(** [for x in xs: body(x)] *)
Fixpoint for_each {A} (xs : list A) (body : A -> M unit) : M unit :=
  match xs with
  | [] => ret tt
  | x :: xs' => body x >> for_each xs' body
  end.

Section Program.
Variable unicode_alnum : N -> bool.
(** [str.lower] on a character outside ASCII, given the characters before
    and after it. *)
Variable unicode_lower : str -> N -> str -> str.

Fixpoint lower_from (before s : str) : str :=
  match s with
  | [] => []
  | c :: s' =>
      (if c <? 0x80 then [ascii_lower c] else unicode_lower before c s')
      ++ lower_from (before ++ [c]) s'
  end.

(** [s.lower()] *)
Definition str_lower (s : str) : str := lower_from [] s.

(** The test of [iter_swift_files] on one path. *)
Definition skipped (p : path) : bool :=
  let parts : gset (list N) := list_to_set (str_lower <$> parts p) in
  bool_decide (lit ".build" ∈ parts) || bool_decide (lit ".swiftpm" ∈ parts).

Definition iter_swift_files (fs : node) (sources_root : path) : exn + list path :=
  match rglob fs sources_root with
  | inl e => inl e
  | inr found => inr (filter (fun p => skipped p = false) found)
  end.

(** The loop of [scan_file] over the numbered lines. *)
Definition scan_step (p : path) (decls : list Decl) (il : nat * str) : list Decl :=
  match re_match (PUBLIC_DECL_RE unicode_alnum) il.2 with
  | None => decls
  | Some m => decls ++ [{| kind := group m 1; name := group m 2; file := p; line := il.1 |}]
  end.

Definition scan_text (p : path) (text : str) : list Decl :=
  foldl (scan_step p) [] (enumerate 1 (splitlines text)).

Definition scan_file (fs : node) (p : path) : exn + list Decl :=
  match read_text fs p with
  | ReadOk text => inr (scan_text p text)
  | ReadDecodeError =>
      match read_text_replace fs p with
      | inr text => inr (scan_text p text)
      | inl e => inl (OSError e)
      end
  | ReadOSError e => inl (OSError e)
  end.

(** [for swift_file in files: decls.extend(scan_file(swift_file))] *)
Fixpoint scan_files (fs : node) (files : list path) (decls : list Decl)
    : exn + list Decl :=
  match files with
  | [] => inr decls
  | f :: files' =>
      match scan_file fs f with
      | inl e => inl e
      | inr ds => scan_files fs files' (decls ++ ds)
      end
  end.

(** The line printed for a declaration whose file is [rel] below the root. *)
Definition entry_text (rel : path) (d : Decl) : str :=
  lit "- `" ++ kind d ++ lit " " ++ name d ++ lit "` ("
  ++ rel_str rel ++ lit ":" ++ str_of_nat (line d) ++ lit ")".

Definition entry_line (root : path) (d : Decl) : M unit :=
  match relative_to (file d) root with
  | None => raise ValueError
  | Some rel => print (entry_text rel d)
  end.

Definition more_line (n : nat) : str :=
  lit "- ... (" ++ str_of_nat (n - 60) ++ lit " more)".

(** What is printed for a module after its two counts. *)
Definition render_listing (root : path) (unique : list Decl) : M unit :=
  match unique with
  | [] => ret tt
  | _ =>
      for_each (take 60 unique) (entry_line root) >>
      (if Nat.ltb 60 (length unique) then print (more_line (length unique))
       else ret tt) >>
      print []
  end.

(** One turn of the loop over the modules.  Discovery runs twice: for the
    scan and, after the heading, for the number of files. *)
Definition render_module (fs : node) (root module_dir : path) : M unit :=
  let* files := lift (iter_swift_files fs module_dir) in
  let* decls := lift (scan_files fs files []) in
  let unique := aggregate decls in
  print (lit "## " ++ base_name module_dir) >>
  print [] >>
  let* counted := lift (iter_swift_files fs module_dir) in
  print (lit "- Files scanned: " ++ str_of_nat (length counted)) >>
  print (lit "- Public decls (unique): " ++ str_of_nat (length unique)) >>
  print [] >>
  render_listing root unique.

Definition sources_of (root : path) : path :=
  root ++ [lit "libs"; lit "hive"; lit "Sources"].

(** [[p for p in entries if p.is_dir()]]: the first test that raises ends
    the comprehension. *)
Fixpoint keep_dirs (fs : node) (entries : list path) : exn + list path :=
  match entries with
  | [] => inr []
  | p :: entries' =>
      match is_dir fs p with
      | inl e => inl e
      | inr b =>
          match keep_dirs fs entries' with
          | inl e => inl e
          | inr dirs => inr (if b then p :: dirs else dirs)
          end
      end
  end.

(** [sorted([p for p in sources_root.iterdir() if p.is_dir()],
    key=lambda p: p.name)] *)
Definition modules_of (fs : node) (sources_root : path) : exn + list path :=
  match iterdir fs sources_root with
  | inl e => inl e
  | inr entries =>
      match keep_dirs fs entries with
      | inl e => inl e
      | inr dirs => inr (sort_by str_ltb base_name dirs)
      end
  end.

(** The lines printed before the first module. *)
Definition report_head (root : path) : list str :=
  [ lit "# Hive Public API (Heuristic Map)"; [];
    lit "- Root: `" ++ path_str root ++ lit "`";
    lit "- Sources: `" ++ path_str (sources_of root) ++ lit "`";
    lit "- Note: This is regex-based; it may miss symbols declared across multiple lines.";
    [] ].

(** [main()], for an already resolved [--root]. *)
Definition main (fs : node) (root : path) : M nat :=
  let sources_root := sources_of root in
  let* there := lift (path_exists fs sources_root) in
  if negb there then
    raise (SystemExit (lit "Expected Swift sources at: " ++ path_str sources_root))
  else
    let* modules := lift (modules_of fs sources_root) in
    print (lit "# Hive Public API (Heuristic Map)") >>
    print [] >>
    print (lit "- Root: `" ++ path_str root ++ lit "`") >>
    print (lit "- Sources: `" ++ path_str sources_root ++ lit "`") >>
    print (lit "- Note: This is regex-based; it may miss symbols declared across multiple lines.") >>
    print [] >>
    for_each modules (render_module fs root) >>
    ret 0%nat.

(** [raise SystemExit(main())]: the exit status of the process.  An
    integer is the status; a message or any other exception gives 1. *)
Definition exit_status (r : exn + nat) : nat :=
  match r with
  | inr n => n
  | inl _ => 1%nat
  end.
End Program.


(** The line of a declaration in the listing, its file taken below the root. *)
Definition entry_of (root : path) (d : Decl) : str :=
  entry_text (default [] (relative_to (file d) root)) d.

(** The lines of a module before its listing. *)
Definition module_head (module_dir : path) (files unique : nat) : list str :=
  [ lit "## " ++ base_name module_dir; [];
    lit "- Files scanned: " ++ str_of_nat files;
    lit "- Public decls (unique): " ++ str_of_nat unique;
    [] ].

(** A path that [scan_file] reads without an exception. *)
Definition readable (fs : node) (p : path) : bool :=
  match read_text fs p with
  | ReadOk _ => true
  | ReadDecodeError => match read_text_replace fs p with inr _ => true | inl _ => false end
  | ReadOSError _ => false
  end.

(** The module directories of a checkout, in the order of the report; none
    when they cannot be listed. *)
Definition module_dirs (fs : node) (root : path) : list path :=
  match modules_of fs (sources_of root) with
  | inr modules => modules
  | inl _ => []
  end.


(** ** Sample checkouts *)

(** Tables for the samples, whose paths and names stay below U+0100. *)
Definition no_alnum_above : N -> bool := fun _ => false.
Definition lower_unchanged : list N -> N -> list N -> list N := fun _ c _ => [c].

(** A directory that the process may list and search. *)
Definition folder (entries : list (list N * node)) : node := Dir true true entries.

Definition plain_file (text : str) : node :=
  File {| strict_read := ReadOk text; replace_read := inr text |}.

(** A file that cannot be opened. *)
Definition locked_file : node :=
  File {| strict_read := ReadOSError PermissionError; replace_read := inl PermissionError |}.

(** A file that is not valid UTF-8 and reads as [text] with replacement. *)
Definition garbled_file (text : str) : node :=
  File {| strict_read := ReadDecodeError; replace_read := inr text |}.

(** A checkout at [/repo] with the given node as its sources root. *)
Definition checkout_at (sources : node) : node :=
  folder [(lit "repo",
           folder [(lit "libs", folder [(lit "hive", folder [(lit "Sources", sources)])])])].

Definition checkout (modules : list (list N * node)) : node :=
  checkout_at (folder modules).

Definition repo : path := [lit "repo"].

(** The scenario of the specification, with a build directory added. *)
Definition sample_fs : node :=
  checkout
    [ (lit "ModB", folder [(lit "B.swift", plain_file (lit "public func run() {"))]);
      (lit "ModA",
       folder [ (lit "A.swift", plain_file ([10; 10] ++ lit "public struct Widget {"));
             (lit ".Build",
              folder [(lit "X.swift", plain_file (lit "public struct Hidden {"))]) ]) ].

Definition locked_fs : node :=
  checkout [ (lit "ModA", folder [(lit "A.swift", locked_file)]) ].

(** Sixty-one declarations with different names, in one file of the
    sample checkout. *)
Definition sample_decls_61 : list Decl :=
  (fun i => {| kind := lit "func"; name := lit "f" ++ str_of_nat i;
               file := repo ++ [lit "F.swift"]; line := S i |}) <$> seq 0 61.

(** A module of two files with the same single declaration. *)
Definition twin_fs : node :=
  checkout
    [ (lit "ModT",
       folder [ (lit "T1.swift", plain_file (lit "public func run() {"));
             (lit "T2.swift", garbled_file (lit "public func run() {")) ]);
      (lit "Empty", folder [ (lit ".build", folder [(lit "Y.swift", locked_file)]) ]) ].

(** The declarations of two sample files, one name declared in both. *)
Definition sample_decls_a : list Decl :=
  [ {| kind := lit "struct"; name := lit "Widget"; file := [lit "A.swift"]; line := 3 |};
    {| kind := lit "func"; name := lit "run"; file := [lit "A.swift"]; line := 9 |} ].

Definition sample_decls_b : list Decl :=
  [ {| kind := lit "func"; name := lit "run"; file := [lit "B.swift"]; line := 1 |};
    {| kind := lit "enum"; name := lit "Mode"; file := [lit "B.swift"]; line := 4 |} ].

(** What is left of a text after its longest prefix in a class. *)
Fixpoint after_run (p : N -> bool) (s : str) : str :=
  match s with
  | c :: s' => if p c then after_run p s' else s
  | [] => []
  end.

(** ** What a match is, apart from the order in which matches are tried

    [matches total r s s' g g']: [r] matches the text between [s] and its
    suffix [s'], turning the groups [g] into [g']. *)

Inductive matches (total : nat) : regex -> str -> str -> groups -> groups -> Prop :=
| M_Bol s g :
    length s = total -> matches total RBol s s g g
| M_Lit l s g :
    matches total (RLit l) (l ++ s) s g g
| M_Set p c s g :
    p c = true -> matches total (RSet p) (c :: s) s g g
| M_Star p u s g :
    Forall (fun c => p c = true) u -> matches total (RStar p) (u ++ s) s g g
| M_Plus p u s g :
    u <> [] -> Forall (fun c => p c = true) u -> matches total (RPlus p) (u ++ s) s g g
| M_Seq r1 r2 s s' s'' g g' g'' :
    matches total r1 s s' g g' -> matches total r2 s' s'' g' g'' ->
    matches total (RSeq r1 r2) s s'' g g''
| M_AltL r1 r2 s s' g g' :
    matches total r1 s s' g g' -> matches total (RAlt r1 r2) s s' g g'
| M_AltR r1 r2 s s' g g' :
    matches total r2 s s' g g' -> matches total (RAlt r1 r2) s s' g g'
| M_OptYes r s s' g g' :
    matches total r s s' g g' -> matches total (ROpt r) s s' g g'
| M_OptNo r s g :
    matches total (ROpt r) s s g g
| M_Group i r s s' g g' :
    matches total r s s' g g' ->
    matches total (RGroup i r) s s' g (<[i := take (length s - length s') s]> g').

Definition all_in (p : N -> bool) (u : str) : Prop := Forall (fun c => p c = true) u.

(** The qualifier between the visibility marker and the keyword: nothing,
    or [final] and white space. *)
Definition qualifier (q : str) : Prop :=
  q = [] \/ exists ws, q = lit "final" ++ ws /\ ws <> [] /\ all_in is_space ws.

(** The shape of a line that [PUBLIC_DECL_RE] matches with keyword [k] and
    identifier [n]. *)
Definition decl_shape (unicode_alnum : N -> bool) (ln k n : str) : Prop :=
  exists ws1 q ws2 c w rest,
    ln = lit "public" ++ ws1 ++ q ++ k ++ ws2 ++ n ++ rest
    /\ ws1 <> [] /\ all_in is_space ws1
    /\ qualifier q
    /\ k ∈ KINDS
    /\ ws2 <> [] /\ all_in is_space ws2
    /\ n = c :: w /\ is_ident_start c = true /\ all_in (is_word unicode_alnum) w.

(** The matching rule in the words of the specification: the same shape
    after any leading white space. *)
Definition spec_decl_shape (unicode_alnum : N -> bool) (ln k n : str) : Prop :=
  exists lead ln', ln = lead ++ ln' /\ all_in is_space lead
                   /\ decl_shape unicode_alnum ln' k n.

(** The declaration a numbered line gives, if it matches. *)
Definition decl_of_line (unicode_alnum : N -> bool) (p : path) (il : nat * list N)
    : option Decl :=
  (fun m => {| kind := group m 1; name := group m 2; file := p; line := il.1 |})
    <$> re_match (PUBLIC_DECL_RE unicode_alnum) il.2.

(** The identifier shape under [re.ASCII]: [[A-Za-z_][A-Za-z0-9_]*]. *)
Definition ascii_identifier (n : list N) : bool :=
  match n with
  | [] => false
  | c :: w => is_ident_start c && forallb is_ident_ascii w
  end.

(** ** Deduplication, read off the part of the list still to come *)

Fixpoint dedupe_from (seen : gset (list N * list N)) (decls : list Decl) : list Decl :=
  match decls with
  | [] => []
  | d :: ds =>
      if decide (key d ∈ seen) then dedupe_from seen ds
      else d :: dedupe_from ({[key d]} ∪ seen) ds
  end.

(** [d] is the first declaration of [decls] with its key. *)
Definition first_with_key (decls : list Decl) (d : Decl) : Prop :=
  exists i, decls !! i = Some d
            /\ forall j d', (j < i)%nat -> decls !! j = Some d' -> key d' <> key d.

(** A text that does not go on with a character of the class. *)
Definition stops (p : N -> bool) (s : str) : Prop :=
  match s with
  | [] => True
  | c :: _ => p c = false
  end.

(** The parts of a line of the shape of [PUBLIC_DECL_RE]: white space,
    qualifier, keyword, white space, identifier and the rest. *)
Definition decl_parts (unicode_alnum : N -> bool)
    (ln ws1 q k ws2 n rest : str) : Prop :=
  ln = lit "public" ++ ws1 ++ q ++ k ++ ws2 ++ n ++ rest
  /\ ws1 <> [] /\ all_in is_space ws1
  /\ qualifier q
  /\ k ∈ KINDS
  /\ ws2 <> [] /\ all_in is_space ws2
  /\ exists c w, n = c :: w /\ is_ident_start c = true
                 /\ all_in (is_word unicode_alnum) w.

(** The sample checkout placed below a directory named [.build]. *)
Definition buried_fs : node := folder [(lit ".build", sample_fs)].
Definition buried_repo : path := [lit ".build"; lit "repo"].

(** A checkout whose second module, in the order of names, cannot be read. *)
Definition half_locked_fs : node :=
  checkout
    [ (lit "ModC", folder [(lit "C.swift", plain_file (lit "public let c = 1"))]);
      (lit "ModB", folder [(lit "B.swift", locked_file)]);
      (lit "ModA", folder [(lit "A.swift", plain_file (lit "public var a = 1"))]) ].

(** A checkout in which [Sources] is a file. *)
Definition flat_fs : node := checkout_at (plain_file []).

(** A module that holds a directory that may not be listed, and a checkout
    with this module. *)
Definition sealed_module : node :=
  folder [ (lit "A.swift", plain_file (lit "public struct Widget {"));
           (lit "Private",
            Dir false true [(lit "P.swift", plain_file (lit "public struct Secret {"))]) ].

Definition sealed_fs : node := checkout [(lit "ModA", sealed_module)].

(** A module with directories of every kind of access, each with a file
    and a subdirectory. *)
Definition mixed_fs : node :=
  let inside := [ (lit "F.swift", plain_file []);
                  (lit "sub", folder [(lit "G.swift", plain_file [])]) ] in
  checkout
    [ (lit "M",
       folder [ (lit "A.swift", plain_file []);
                (lit "Closed", Dir false false inside);
                (lit "Listed", Dir true false inside);
                (lit "Searched", Dir false true inside) ]) ].

(** A checkout whose sources root may be searched and not listed. *)
Definition unlisted_fs : node :=
  checkout_at
    (Dir false true [(lit "ModA", folder [(lit "A.swift", plain_file (lit "public let a = 1"))])]).

(** A checkout whose sources root may be listed and not searched. *)
Definition unsearched_fs : node :=
  checkout_at
    (Dir true false [(lit "ModA", folder [(lit "A.swift", plain_file (lit "public let a = 1"))])]).

(** A checkout below a directory [libs] that may not be searched, without
    and with a sources root. *)
Definition barred_fs (hive : list (list N * node)) : node :=
  folder [(lit "repo", folder [(lit "libs", Dir true false [(lit "hive", folder hive)])])].

(** Goes through the nine keywords of a membership in [KINDS]. *)
Ltac each_kind H :=
  unfold KINDS in H;
  repeat (apply elem_of_cons in H as [->|H]);
  [..|by apply elem_of_nil in H].

(** ** Properties of the matcher *)

Lemma strip_prefix_Some p s s' : strip_prefix p s = Some s' <-> s = p ++ s'.
Proof.
  revert s. induction p as [|x p IH]; intros [|y s]; simpl; try (split; congruence).
  destruct (N.eqb_spec x y) as [->|Hne].
  - rewrite IH. split; congruence.
  - split; congruence.
Qed.

Lemma strip_prefix_app p s : strip_prefix p (p ++ s) = Some s.
Proof. by apply strip_prefix_Some. Qed.

Lemma take_captured (u s : str) : take (length (u ++ s) - length s) (u ++ s) = u.
Proof.
  rewrite length_app. replace (length u + length s - length s)%nat with (length u) by lia.
  by rewrite take_app_length.
Qed.

Section MatcherFacts.
Context {R : Type} (total : nat).

Lemma match_star_sound p s (k : str -> option R) x :
  match_star p s k = Some x ->
  exists u s', s = u ++ s' /\ all_in p u /\ k s' = Some x.
Proof.
  revert x. induction s as [|c s IH]; intros x; simpl.
  - intros Hk. exists [], []. split_and!; [done|constructor|done].
  - destruct (p c) eqn:Hc.
    + destruct (match_star p s k) as [y|] eqn:Hs.
      * intros [= <-]. destruct (IH y eq_refl) as (u & s' & -> & Hu & Hk).
        exists (c :: u), s'. split_and!; [done|by constructor|done].
      * intros Hk. exists [], (c :: s). split_and!; [done|constructor|done].
    + intros Hk. exists [], (c :: s). split_and!; [done|constructor|done].
Qed.

Lemma match_star_complete p u s (k : str -> option R) :
  all_in p u -> is_Some (k s) -> is_Some (match_star p (u ++ s) k).
Proof.
  intros Hu Hk. induction Hu as [|c u Hc Hu IH]; simpl.
  - destruct s as [|c s]; simpl; [done|].
    destruct (p c); [|done]. by destruct (match_star p s k).
  - rewrite Hc. by destruct IH as [y ->].
Qed.

Lemma rmatch_sound r : forall s g (k : str -> groups -> option R) x,
  rmatch total r s g k = Some x ->
  exists s' g', matches total r s s' g g' /\ k s' g' = Some x.
Proof.
  induction r as [|l|p|p|p|r1 IH1 r2 IH2|r1 IH1 r2 IH2|r IH|i r IH];
    intros s g k x; simpl.
  - destruct (Nat.eqb_spec (length s) total); [|done].
    intros Hk. exists s, g. split; [by constructor|done].
  - destruct (strip_prefix l s) as [s'|] eqn:Hl; [|done].
    apply strip_prefix_Some in Hl as ->.
    intros Hk. exists s', g. split; [constructor|done].
  - destruct s as [|c s]; [done|]. destruct (p c) eqn:Hc; [|done].
    intros Hk. exists s, g. split; [by constructor|done].
  - intros (u & s' & -> & Hu & Hk)%match_star_sound.
    exists s', g. split; [by constructor|done].
  - destruct s as [|c s]; [done|]. destruct (p c) eqn:Hc; [|done].
    intros (u & s' & -> & Hu & Hk)%match_star_sound.
    exists s', g. split; [|done].
    apply (M_Plus total p (c :: u)); [done|by constructor].
  - intros (s1 & g1 & H1 & (s2 & g2 & H2 & Hk)%IH2)%IH1.
    exists s2, g2. split; [by econstructor|done].
  - destruct (rmatch total r1 s g k) as [y|] eqn:H1.
    + intros [= <-]. apply IH1 in H1 as (s' & g' & H1 & Hk).
      exists s', g'. split; [by apply M_AltL|done].
    + intros (s' & g' & H2 & Hk)%IH2.
      exists s', g'. split; [by apply M_AltR|done].
  - destruct (rmatch total r s g k) as [y|] eqn:H1.
    + intros [= <-]. apply IH in H1 as (s' & g' & H1 & Hk).
      exists s', g'. split; [by apply M_OptYes|done].
    + intros Hk. exists s, g. split; [apply M_OptNo|done].
  - intros (s' & g' & H1 & Hk)%IH.
    eexists s', _. split; [by apply M_Group|done].
Qed.

Lemma rmatch_complete r s s' g g' :
  matches total r s s' g g' ->
  forall k : str -> groups -> option R,
    is_Some (k s' g') -> is_Some (rmatch total r s g k).
Proof.
  induction 1 as [s g Hlen|l s g|p c s g Hc|p u s g Hu|p u s g Hne Hu
    |r1 r2 s s' s'' g g' g'' _ IH1 _ IH2|r1 r2 s s' g g' _ IH
    |r1 r2 s s' g g' _ IH|r s s' g g' _ IH|r s g|i r s s' g g' _ IH];
    intros k Hk; simpl.
  - apply Nat.eqb_eq in Hlen. by rewrite Hlen.
  - by rewrite strip_prefix_app.
  - by rewrite Hc.
  - by apply match_star_complete.
  - destruct Hu as [|c u Hc Hu]; [done|]. simpl. rewrite Hc.
    by apply match_star_complete.
  - apply IH1, IH2, Hk.
  - by destruct (IH k Hk) as [y ->].
  - destruct (rmatch total r1 s g k); [done|]. by apply IH.
  - by destruct (IH k Hk) as [y ->].
  - by destruct (rmatch total r s g k).
  - by apply IH.
Qed.
End MatcherFacts.

Lemma re_match_sound r ln m :
  re_match r ln = Some m -> exists s', matches (length ln) r ln s' ∅ m.
Proof.
  intros (s' & g' & H & [= <-])%rmatch_sound. by exists s'.
Qed.

Lemma re_match_complete r ln s' m :
  matches (length ln) r ln s' ∅ m -> is_Some (re_match r ln).
Proof. intros H. by apply (rmatch_complete _ _ _ _ _ _ H). Qed.

(** *** The matches of the pieces of [PUBLIC_DECL_RE] *)

Section Pieces.
Variable total : nat.

Lemma matches_bol s s' g g' :
  matches total RBol s s' g g' <-> length s = total /\ s' = s /\ g' = g.
Proof.
  split.
  - intros H. by inv H.
  - intros (? & -> & ->). by constructor.
Qed.

Lemma matches_lit l s s' g g' :
  matches total (RLit l) s s' g g' <-> s = l ++ s' /\ g' = g.
Proof.
  split.
  - intros H. by inv H.
  - intros [-> ->]. constructor.
Qed.

Lemma matches_plus p s s' g g' :
  matches total (RPlus p) s s' g g' <->
  (exists u, s = u ++ s' /\ u <> [] /\ all_in p u) /\ g' = g.
Proof.
  split.
  - intros H. inv H. split; [|done]. by eexists.
  - intros [(u & -> & ? & ?) ->]. by constructor.
Qed.

Lemma matches_seq r1 r2 s s'' g g'' :
  matches total (RSeq r1 r2) s s'' g g'' <->
  exists s' g', matches total r1 s s' g g' /\ matches total r2 s' s'' g' g''.
Proof.
  split.
  - intros H. inv H. eauto.
  - intros (s' & g' & ? & ?). by econstructor.
Qed.

Lemma matches_alternatives ws s s' g g' :
  matches total (alternatives ws) s s' g g' <->
  (exists w, w ∈ ws /\ s = w ++ s') /\ g' = g.
Proof.
  induction ws as [|w [|w' ws] IH].
  - simpl. split.
    + intros H. by inv H.
    + intros [(w & Hw & _) _]. by apply not_elem_of_nil in Hw.
  - simpl. rewrite matches_lit. split.
    + intros [-> ->]. split; [|done]. exists w. split; [apply list_elem_of_here|done].
    + intros [(w0 & ->%list_elem_of_singleton & ->) ->]. done.
  - change (alternatives (w :: w' :: ws)) with (RAlt (RLit w) (alternatives (w' :: ws))).
    split.
    + intros H. inv H.
      * match goal with H : matches _ (RLit _) _ _ _ _ |- _ =>
          apply matches_lit in H as [-> ->] end.
        split; [|done]. exists w. split; [apply list_elem_of_here|done].
      * match goal with H : matches _ _ _ _ _ _ |- _ =>
          apply IH in H as [(w0 & Hw0 & ->) ->] end.
        split; [|done]. exists w0. split; [by apply list_elem_of_further|done].
    + intros [(w0 & Hw0 & ->) ->]. apply elem_of_cons in Hw0 as [->|Hw0].
      * apply M_AltL, matches_lit. done.
      * apply M_AltR, IH. split; [|done]. by exists w0.
Qed.

Lemma matches_group i r s s' g g' :
  matches total (RGroup i r) s s' g g' <->
  exists g0, matches total r s s' g g0
             /\ g' = <[i := take (length s - length s') s]> g0.
Proof.
  split.
  - intros H. inv H. eauto.
  - intros (g0 & ? & ->). by constructor.
Qed.

Lemma matches_opt r s s' g g' :
  matches total (ROpt r) s s' g g' <->
  matches total r s s' g g' \/ (s' = s /\ g' = g).
Proof.
  split.
  - intros H. inv H; eauto.
  - intros [?|[-> ->]]; by constructor.
Qed.

Lemma matches_set p s s' g g' :
  matches total (RSet p) s s' g g' <->
  (exists c, s = c :: s' /\ p c = true) /\ g' = g.
Proof.
  split.
  - intros H. inv H. eauto.
  - intros [(c & -> & ?) ->]. by constructor.
Qed.

Lemma matches_star p s s' g g' :
  matches total (RStar p) s s' g g' <->
  (exists u, s = u ++ s' /\ all_in p u) /\ g' = g.
Proof.
  split.
  - intros H. inv H. eauto.
  - intros [(u & -> & ?) ->]. by constructor.
Qed.

Lemma matches_kind s s' g g' :
  matches total (RGroup 1 (alternatives KINDS)) s s' g g' <->
  exists k, k ∈ KINDS /\ s = k ++ s' /\ g' = <[1%nat := k]> g.
Proof.
  rewrite matches_group. split.
  - intros (g0 & [(k & Hk & ->) ->]%matches_alternatives & ->).
    exists k. by rewrite take_captured.
  - intros (k & Hk & -> & ->). exists g. rewrite take_captured. split; [|done].
    apply matches_alternatives. split; [|done]. by exists k.
Qed.

Lemma matches_qualifier s s' g g' :
  matches total (ROpt (RSeq (RLit (lit "final")) (RPlus is_space))) s s' g g' <->
  (exists q, qualifier q /\ s = q ++ s') /\ g' = g.
Proof.
  rewrite matches_opt, matches_seq. split.
  - intros [(s1 & g1 & [-> ->]%matches_lit & [(ws & -> & ? & ?) ->]%matches_plus)
           |[-> ->]].
    + split; [|done]. exists (lit "final" ++ ws). split.
      * right. by exists ws.
      * by rewrite <- app_assoc.
    + split; [|done]. exists []. split; [by left|done].
  - intros [(q & [->|(ws & -> & ? & ?)] & ->) ->].
    + by right.
    + left. exists (ws ++ s'), g. split.
      * apply matches_lit. by rewrite <- app_assoc.
      * apply matches_plus. split; [|done]. by exists ws.
Qed.

Lemma matches_ident (word : N -> bool) s s' g g' :
  matches total (RGroup 2 (RSeq (RSet is_ident_start) (RStar word))) s s' g g' <->
  exists c w, s = (c :: w) ++ s' /\ is_ident_start c = true /\ all_in word w
              /\ g' = <[2%nat := c :: w]> g.
Proof.
  rewrite matches_group. split.
  - intros (g0 & (s1 & g1 & [(c & -> & ?) ->]%matches_set
                  & [(w & -> & ?) ->]%matches_star)%matches_seq & ->).
    exists c, w. change (c :: w ++ s') with ((c :: w) ++ s').
    by rewrite take_captured.
  - intros (c & w & -> & Hc & Hw & ->). exists g. rewrite take_captured.
    split; [|done]. apply matches_seq. exists (w ++ s'), g. split.
    + apply matches_set. split; [|done]. by exists c.
    + apply matches_star. split; [|done]. by exists w.
Qed.
End Pieces.

(** The matches of the whole pattern are the lines of the shape. *)
Lemma matches_public_decl ua total ln s' m :
  matches total (PUBLIC_DECL_RE ua) ln s' ∅ m <->
  length ln = total /\
  exists ws1 q k ws2 c w,
    ln = lit "public" ++ ws1 ++ q ++ k ++ ws2 ++ (c :: w) ++ s'
    /\ ws1 <> [] /\ all_in is_space ws1 /\ qualifier q /\ k ∈ KINDS
    /\ ws2 <> [] /\ all_in is_space ws2
    /\ is_ident_start c = true /\ all_in (is_word ua) w
    /\ m = <[2%nat := c :: w]> (<[1%nat := k]> ∅).
Proof.
  unfold PUBLIC_DECL_RE. split.
  - intros (s0 & g0 & (Hlen & -> & ->)%matches_bol
      & (s1 & g1 & [-> ->]%matches_lit
      & (s2 & g2 & [(ws1 & -> & ? & ?) ->]%matches_plus
      & (s3 & g3 & [(q & ? & ->) ->]%matches_qualifier
      & (s4 & g4 & (k & ? & -> & ->)%matches_kind
      & (s5 & g5 & [(ws2 & -> & ? & ?) ->]%matches_plus
      & (c & w & -> & ? & ? & ->)%matches_ident)%matches_seq)%matches_seq
        )%matches_seq)%matches_seq)%matches_seq)%matches_seq.
    split; [done|]. exists ws1, q, k, ws2, c, w. by split_and!.
  - intros (Hlen & ws1 & q & k & ws2 & c & w & -> & ? & ? & ? & ? & ? & ? & ? & ? & ->).
    apply matches_seq. eexists _, _. split; [by apply matches_bol|].
    apply matches_seq. eexists _, _. split; [by apply matches_lit|].
    apply matches_seq. eexists _, _. split; [apply matches_plus; eauto|].
    apply matches_seq. eexists _, _. split; [apply matches_qualifier; eauto|].
    apply matches_seq. eexists _, _. split; [apply matches_kind; eauto|].
    apply matches_seq. eexists _, _. split; [apply matches_plus; eauto|].
    apply matches_ident. eauto 10.
Qed.

Lemma re_match_decl_sound ua ln m :
  re_match (PUBLIC_DECL_RE ua) ln = Some m ->
  decl_shape ua ln (group m 1) (group m 2).
Proof.
  intros [s' H]%re_match_sound.
  apply matches_public_decl in H
    as (_ & ws1 & q & k & ws2 & c & w & -> & ? & ? & ? & ? & ? & ? & ? & ? & ->).
  exists ws1, q, ws2, c, w, s'. unfold group.
  rewrite lookup_insert_ne, !lookup_insert_eq by done. simpl. by split_and!.
Qed.

Lemma re_match_decl_complete ua ln k n :
  decl_shape ua ln k n -> is_Some (re_match (PUBLIC_DECL_RE ua) ln).
Proof.
  intros (ws1 & q & ws2 & c & w & rest & -> & ? & ? & ? & ? & ? & ? & -> & ? & ?).
  eapply re_match_complete, matches_public_decl. split; [done|].
  exists ws1, q, k, ws2, c, w. by split_and!.
Qed.

(** ** Order on strings and keys *)

Lemma str_ltb_irrefl a : str_ltb a a = false.
Proof.
  induction a as [|x a IH]; simpl; [done|].
  by rewrite N.ltb_irrefl, N.eqb_refl, IH.
Qed.

Lemma str_ltb_trans a b c : str_ltb a b = true -> str_ltb b c = true -> str_ltb a c = true.
Proof.
  revert b c. induction a as [|x a IH]; intros [|y b] [|z c]; simpl; try done.
  intros Hab Hbc.
  apply orb_true_iff in Hab as [Hxy|[Hxy Hab]%andb_true_iff];
    apply orb_true_iff in Hbc as [Hyz|[Hyz Hbc]%andb_true_iff];
    rewrite ?N.ltb_lt, ?N.eqb_eq in *; apply orb_true_iff.
  - left. apply N.ltb_lt. lia.
  - left. apply N.ltb_lt. lia.
  - left. apply N.ltb_lt. lia.
  - right. apply andb_true_iff. split; [apply N.eqb_eq; lia|by eapply IH].
Qed.

Lemma str_ltb_total a b : a = b \/ str_ltb a b = true \/ str_ltb b a = true.
Proof.
  revert b. induction a as [|x a IH]; intros [|y b]; simpl; auto.
  destruct (N.lt_trichotomy x y) as [Hlt|[->|Hgt]].
  - right; left. apply N.ltb_lt in Hlt. by rewrite Hlt.
  - rewrite N.ltb_irrefl, N.eqb_refl. simpl.
    destruct (IH b) as [->|[?|?]]; auto.
  - right; right. apply N.ltb_lt in Hgt. by rewrite Hgt.
Qed.

Lemma key_ltb_irrefl a : key_ltb a a = false.
Proof. unfold key_ltb. by rewrite !str_ltb_irrefl, andb_false_r. Qed.

Lemma key_ltb_trans a b c : key_ltb a b = true -> key_ltb b c = true -> key_ltb a c = true.
Proof.
  unfold key_ltb. destruct a as [a1 a2], b as [b1 b2], c as [c1 c2]; simpl.
  intros [H1|[->%bool_decide_eq_true H1]%andb_true_iff]%orb_true_iff
         [H2|[->%bool_decide_eq_true H2]%andb_true_iff]%orb_true_iff;
    apply orb_true_iff.
  - left. by eapply str_ltb_trans.
  - by left.
  - by left.
  - right. rewrite bool_decide_eq_true_2 by done. by eapply str_ltb_trans.
Qed.

Lemma key_ltb_total a b : a = b \/ key_ltb a b = true \/ key_ltb b a = true.
Proof.
  unfold key_ltb. destruct a as [a1 a2], b as [b1 b2]; simpl.
  destruct (str_ltb_total a1 b1) as [->|[H|H]].
  - rewrite str_ltb_irrefl, bool_decide_eq_true_2 by done. simpl.
    destruct (str_ltb_total a2 b2) as [->|[?|?]]; auto.
  - right; left. by rewrite H.
  - right; right. by rewrite H.
Qed.

Lemma key_lt_asym a b : key_lt a b -> key_lt b a -> False.
Proof.
  unfold key_lt. intros H1 H2.
  pose proof (key_ltb_trans _ _ _ H1 H2) as H. by rewrite key_ltb_irrefl in H.
Qed.

(** ** The sort *)

Section SortFacts.
Context {A K : Type} (ltb : K -> K -> bool) (keyf : A -> K).
Hypothesis ltb_irrefl : forall a, ltb a a = false.
Hypothesis ltb_trans : forall a b c, ltb a b = true -> ltb b c = true -> ltb a c = true.
Hypothesis ltb_total : forall a b, a = b \/ ltb a b = true \/ ltb b a = true.

Lemma not_after_trans x y z : not_after ltb keyf x y -> not_after ltb keyf y z -> not_after ltb keyf x z.
Proof using ltb_irrefl ltb_trans ltb_total.
  unfold not_after. intros Hxy Hyz.
  destruct (ltb (keyf z) (keyf x)) eqn:Hzx; [|done].
  destruct (ltb_total (keyf x) (keyf y)) as [Heq|[Hlt|Hgt]].
  - rewrite Heq in Hzx. congruence.
  - pose proof (ltb_trans _ _ _ Hzx Hlt). congruence.
  - congruence.
Qed.

Lemma before_not_after x y : ltb (keyf x) (keyf y) = true -> not_after ltb keyf x y.
Proof using ltb_irrefl ltb_trans.
  unfold not_after. intros Hxy. destruct (ltb (keyf y) (keyf x)) eqn:Hyx; [|done].
  pose proof (ltb_trans _ _ _ Hxy Hyx) as H. by rewrite ltb_irrefl in H.
Qed.

Lemma insert_sorted_perm x l : insert_sorted ltb keyf x l ≡ₚ x :: l.
Proof.
  induction l as [|y l IH]; simpl; [done|].
  destruct (ltb (keyf y) (keyf x)); [|done].
  rewrite IH. apply perm_swap.
Qed.

Lemma sort_by_perm l : sort_by ltb keyf l ≡ₚ l.
Proof.
  induction l as [|x l IH]; simpl; [done|].
  by rewrite insert_sorted_perm, IH.
Qed.

Lemma insert_sorted_sorted x l :
  StronglySorted (not_after ltb keyf) l -> StronglySorted (not_after ltb keyf) (insert_sorted ltb keyf x l).
Proof using ltb_irrefl ltb_trans ltb_total.
  induction 1 as [|y l Hl IH Hy]; simpl.
  - repeat constructor.
  - destruct (ltb (keyf y) (keyf x)) eqn:Hyx.
    + constructor; [done|].
      rewrite insert_sorted_perm. constructor; [|done].
      by apply before_not_after.
    + constructor; [by constructor|].
      constructor; [done|].
      eapply Forall_impl; [exact Hy|]. intros z Hz. by eapply not_after_trans.
Qed.

Lemma sort_by_sorted l : StronglySorted (not_after ltb keyf) (sort_by ltb keyf l).
Proof using ltb_irrefl ltb_trans ltb_total.
  induction l as [|x l IH]; simpl; [constructor|]. by apply insert_sorted_sorted.
Qed.

(** With pairwise different keys the order is strict. *)
Lemma sorted_strict l :
  NoDup (keyf <$> l) -> StronglySorted (not_after ltb keyf) l ->
  StronglySorted (fun a b => ltb a b = true) (keyf <$> l).
Proof using ltb_total.
  intros Hnd Hs. induction Hs as [|x l Hl IH Hx]; simpl; [constructor|].
  apply NoDup_cons in Hnd as [Hnotin Hnd]. constructor; [by apply IH|].
  apply Forall_fmap, Forall_forall. intros y Hy. simpl.
  rewrite Forall_forall in Hx. specialize (Hx y Hy). unfold not_after in Hx.
  destruct (ltb_total (keyf x) (keyf y)) as [Heq|[?|?]]; [|done|congruence].
  destruct Hnotin. rewrite Heq. by apply list_elem_of_fmap_2.
Qed.
End SortFacts.

(** ** Deduplication *)

Lemma foldl_dedupe_step seen acc ds :
  (foldl dedupe_step (seen, acc) ds).2 = acc ++ dedupe_from seen ds.
Proof.
  revert seen acc. induction ds as [|d ds IH]; intros seen acc; simpl.
  - by rewrite app_nil_r.
  - unfold dedupe_step at 2. simpl. destruct (decide (key d ∈ seen)).
    + apply IH.
    + rewrite IH. by rewrite <- app_assoc.
Qed.

Lemma dedupe_dedupe_from decls : dedupe decls = dedupe_from ∅ decls.
Proof. unfold dedupe. by rewrite foldl_dedupe_step. Qed.

Lemma first_with_key_cons d0 ds d :
  first_with_key (d0 :: ds) d <-> d = d0 \/ (key d0 <> key d /\ first_with_key ds d).
Proof.
  split.
  - intros ([|i] & Hi & Hfirst); simpl in Hi.
    + left. congruence.
    + right. split.
      * apply (Hfirst 0%nat); [lia|done].
      * exists i. split; [done|]. intros j d' Hj Hd'.
        apply (Hfirst (S j)); [lia|done].
  - intros [->|(Hne & i & Hi & Hfirst)].
    + exists 0%nat. split; [done|]. intros j d' Hj. lia.
    + exists (S i). split; [done|]. intros [|j] d' Hj Hd'; simpl in Hd'.
      * congruence.
      * apply (Hfirst j); [lia|done].
Qed.

Lemma first_with_key_elem decls d : first_with_key decls d -> d ∈ decls.
Proof. intros (i & Hi & _). by eapply list_elem_of_lookup_2. Qed.

Lemma elem_of_dedupe_from seen decls d :
  d ∈ dedupe_from seen decls <-> (key d ∉ seen) /\ first_with_key decls d.
Proof.
  revert seen. induction decls as [|d0 ds IH]; intros seen; simpl.
  - split; [by intros ?%elem_of_nil|]. by intros [_ ?%first_with_key_elem%elem_of_nil].
  - rewrite first_with_key_cons. destruct (decide (key d0 ∈ seen)) as [Hin|Hnotin].
    + rewrite IH. split.
      * intros [Hd Hf]. split; [done|]. right. split; [|done]. congruence.
      * intros [Hd [->|[_ Hf]]]; [done|]. by split.
    + rewrite elem_of_cons, IH. split.
      * intros [->|[Hd Hf]]; [split; [done|by left]|].
        apply not_elem_of_union in Hd as [Hne%not_elem_of_singleton Hd].
        split; [done|]. right. split; [congruence|done].
      * intros [Hd [->|[Hne Hf]]]; [by left|]. right. split; [|done].
        apply not_elem_of_union. split; [|done].
        apply not_elem_of_singleton. congruence.
Qed.

Lemma NoDup_keys_dedupe_from seen decls : NoDup (key <$> dedupe_from seen decls).
Proof.
  revert seen. induction decls as [|d0 ds IH]; intros seen; simpl; [constructor|].
  destruct (decide (key d0 ∈ seen)); [apply IH|].
  rewrite fmap_cons. constructor; [|apply IH].
  intros (d & Hk & [Hd _]%elem_of_dedupe_from)%list_elem_of_fmap.
  apply Hd, elem_of_union_l, elem_of_singleton. done.
Qed.

Lemma keys_dedupe_from seen decls k :
  k ∈ key <$> dedupe_from seen decls <-> (k ∉ seen) /\ k ∈ key <$> decls.
Proof.
  revert seen. induction decls as [|d0 ds IH]; intros seen; cbn [dedupe_from].
  - rewrite fmap_nil, elem_of_nil. tauto.
  - destruct (decide (key d0 ∈ seen)) as [Hin|Hnotin].
    + rewrite IH, fmap_cons, elem_of_cons. split; [tauto|].
      intros [Hk [->|?]]; tauto.
    + rewrite !fmap_cons, !elem_of_cons, IH, not_elem_of_union, not_elem_of_singleton.
      split.
      * intros [->|[[Hne Hk] ?]]; tauto.
      * intros [Hk [->|?]]; [tauto|]. destruct (decide (k = key d0)); tauto.
Qed.

Lemma filter_key_absent (l : list Decl) k :
  k ∉ key <$> l -> filter (fun d' => key d' = k) l = [].
Proof.
  induction l as [|x l IH]; [done|].
  rewrite fmap_cons, not_elem_of_cons. intros [Hne Hk].
  rewrite filter_cons_False by congruence. by apply IH.
Qed.

Lemma filter_key_unique (l : list Decl) d :
  NoDup (key <$> l) -> d ∈ l -> filter (fun d' => key d' = key d) l = [d].
Proof.
  induction l as [|x l IH]; intros Hnd Hd; [by apply elem_of_nil in Hd|].
  rewrite fmap_cons in Hnd. apply NoDup_cons in Hnd as [Hx Hnd].
  apply elem_of_cons in Hd as [->|Hd].
  - rewrite filter_cons_True by done. by rewrite filter_key_absent.
  - rewrite filter_cons_False; [by apply IH|].
    intros Heq. apply Hx. rewrite Heq. by apply list_elem_of_fmap_2.
Qed.

Lemma aggregate_perm decls : aggregate decls ≡ₚ dedupe decls.
Proof. apply sort_by_perm. Qed.

Lemma NoDup_keys_aggregate decls : NoDup (key <$> aggregate decls).
Proof.
  rewrite aggregate_perm, dedupe_dedupe_from. apply NoDup_keys_dedupe_from.
Qed.

Lemma keys_aggregate decls k : k ∈ key <$> aggregate decls <-> k ∈ key <$> decls.
Proof.
  rewrite aggregate_perm, dedupe_dedupe_from, keys_dedupe_from.
  split; [tauto|]. intros Hk. split; [apply not_elem_of_empty|done].
Qed.

Lemma sorted_keys_aggregate decls : StronglySorted key_lt (key <$> aggregate decls).
Proof.
  apply (sorted_strict key_ltb key key_ltb_total).
  - apply NoDup_keys_aggregate.
  - apply sort_by_sorted;
      [apply key_ltb_irrefl|apply key_ltb_trans|apply key_ltb_total].
Qed.

Lemma aggregate_keys_perm decls decls' :
  decls ≡ₚ decls' -> key <$> aggregate decls = key <$> aggregate decls'.
Proof.
  intros Hp.
  assert (AntiSymm (=) key_lt) as Hanti.
  { intros a b H1 H2. destruct (key_lt_asym _ _ H1 H2). }
  apply (StronglySorted_unique key_lt); try apply sorted_keys_aggregate.
  apply NoDup_Permutation; try apply NoDup_keys_aggregate.
  intros k. rewrite !keys_aggregate. by rewrite Hp.
Qed.

Lemma concat_perm {A} (ls ls' : list (list A)) : ls ≡ₚ ls' -> concat ls ≡ₚ concat ls'.
Proof.
  induction 1 as [|x l l' _ IH|x y l|l l' l'' _ IH1 _ IH2]; simpl.
  - done.
  - by rewrite IH.
  - rewrite !app_assoc. f_equiv. apply Permutation_app_comm.
  - by rewrite IH1.
Qed.

Lemma first_with_key_exists decls d :
  d ∈ decls -> exists d', first_with_key decls d' /\ key d' = key d.
Proof.
  induction decls as [|d0 ds IH]; [by intros ?%elem_of_nil|].
  intros Hd. destruct (decide (key d0 = key d)) as [Heq|Hne].
  - exists d0. split; [|done]. apply first_with_key_cons. by left.
  - apply elem_of_cons in Hd as [->|Hd]; [done|].
    destruct (IH Hd) as (d' & Hf & Hk). exists d'. split; [|done].
    apply first_with_key_cons. right. split; [congruence|done].
Qed.

Lemma elem_of_aggregate decls d : d ∈ aggregate decls <-> first_with_key decls d.
Proof.
  rewrite aggregate_perm, dedupe_dedupe_from, elem_of_dedupe_from.
  split; [tauto|]. intros Hf. split; [apply not_elem_of_empty|done].
Qed.

(** C2: the declarations of a module are unique under (kind, name); of the
    declarations that share a kind and a name exactly one is kept, and it
    is the first in the order in which they were read, with the file and
    the line of that occurrence. *)
Theorem C2_dedupe_keeps_first_occurrence (decls : list Decl) :
  NoDup (key <$> aggregate decls)
  /\ aggregate decls ≡ₚ dedupe decls
  /\ (forall d, d ∈ dedupe decls <-> first_with_key decls d)
  /\ (forall d, d ∈ aggregate decls <-> first_with_key decls d)
  /\ (forall d, d ∈ decls ->
        exists d', filter (fun x => key x = key d) (aggregate decls) = [d']
                   /\ first_with_key decls d' /\ key d' = key d).
Proof.
  split_and!.
  - apply NoDup_keys_aggregate.
  - apply aggregate_perm.
  - intros d. by rewrite <- aggregate_perm, elem_of_aggregate.
  - apply elem_of_aggregate.
  - intros d Hd. destruct (first_with_key_exists _ _ Hd) as (d' & Hf & Hk).
    exists d'. split_and!; [|done|done].
    rewrite <- Hk. apply filter_key_unique; [apply NoDup_keys_aggregate|].
    by apply elem_of_aggregate.
Qed.

(** C3: the listing of a module is sorted by (kind, name), ascending in
    the ordinary order of strings, and the (kind, name) pairs listed do not
    depend on the order in which the files, and so the declarations, are
    read. *)
Theorem C3_sorted_whatever_the_file_order (per_file per_file' : list (list Decl)) :
  per_file ≡ₚ per_file' ->
  StronglySorted key_lt (key <$> aggregate (concat per_file))
  /\ key <$> aggregate (concat per_file) = key <$> aggregate (concat per_file').
Proof.
  intros Hp. split.
  - apply sorted_keys_aggregate.
  - by apply aggregate_keys_perm, concat_perm.
Qed.

(** ** The scan of one file *)

Section ScanFacts.
Variable ua : N -> bool.

Lemma scan_step_decl_of_line p decls il :
  scan_step ua p decls il = decls ++ option_list (decl_of_line ua p il).
Proof.
  unfold scan_step, decl_of_line.
  destruct (re_match (PUBLIC_DECL_RE ua) il.2); simpl; [done|by rewrite app_nil_r].
Qed.

Lemma foldl_scan_step p acc ils :
  foldl (scan_step ua p) acc ils = acc ++ omap (decl_of_line ua p) ils.
Proof.
  revert acc. induction ils as [|il ils IH]; intros acc; simpl.
  - by rewrite app_nil_r.
  - rewrite IH, scan_step_decl_of_line, <- app_assoc. f_equal.
    by destruct (decl_of_line ua p il).
Qed.

Lemma scan_text_omap p text :
  scan_text ua p text = omap (decl_of_line ua p) (enumerate 1 (splitlines text)).
Proof. unfold scan_text. by rewrite foldl_scan_step. Qed.

Lemma enumerate_lookup {A} (l : list A) start i :
  enumerate start l !! i = (fun x => ((start + i)%nat, x)) <$> l !! i.
Proof.
  revert start i. induction l as [|x l IH]; intros start [|i]; simpl; try done.
  - by rewrite Nat.add_0_r.
  - rewrite IH. by rewrite Nat.add_succ_r.
Qed.

Lemma elem_of_scan_lines p start lines d :
  d ∈ omap (decl_of_line ua p) (enumerate start lines) <->
  exists i ln m, lines !! i = Some ln
    /\ re_match (PUBLIC_DECL_RE ua) ln = Some m
    /\ d = {| kind := group m 1; name := group m 2; file := p; line := (start + i)%nat |}.
Proof.
  rewrite list_elem_of_omap. split.
  - intros ([j ln] & (i & Hi)%list_elem_of_lookup_1 & Hd).
    rewrite enumerate_lookup in Hi. unfold decl_of_line in Hd. simpl in Hd.
    destruct (lines !! i) as [ln'|] eqn:Hln; simplify_eq/=.
    destruct (re_match (PUBLIC_DECL_RE ua) ln) as [m|] eqn:Hm; simplify_eq/=.
    by exists i, ln, m.
  - intros (i & ln & m & Hi & Hm & ->). exists ((start + i)%nat, ln). split.
    + apply (list_elem_of_lookup_2 _ i). by rewrite enumerate_lookup, Hi.
    + unfold decl_of_line. simpl. by rewrite Hm.
Qed.

Lemma length_scan_lines p start lines :
  length (omap (decl_of_line ua p) (enumerate start lines))
  = length (filter (fun ln => is_Some (re_match (PUBLIC_DECL_RE ua) ln)) lines).
Proof.
  revert start. induction lines as [|ln lines IH]; intros start; [done|].
  cbn [enumerate omap list_omap]. unfold decl_of_line at 1. simpl.
  destruct (re_match (PUBLIC_DECL_RE ua) ln) as [m|] eqn:Hm; simpl.
  - rewrite filter_cons_True by (by rewrite Hm). simpl. f_equal. apply IH.
  - rewrite filter_cons_False by (rewrite Hm; by intros [? ?]). apply IH.
Qed.

Lemma sorted_scan_lines p start lines :
  StronglySorted lt (line <$> omap (decl_of_line ua p) (enumerate start lines)).
Proof.
  revert start. induction lines as [|ln lines IH]; intros start; [constructor|].
  cbn [enumerate omap list_omap]. unfold decl_of_line at 1. simpl.
  destruct (re_match (PUBLIC_DECL_RE ua) ln) as [m|]; simpl; [|apply IH].
  constructor; [apply IH|].
  apply Forall_fmap, Forall_forall. intros d Hd.
  apply elem_of_scan_lines in Hd as (i & ln' & m' & _ & _ & ->). simpl. lia.
Qed.

Lemma scan_lines_none p start lines :
  Forall (fun ln => re_match (PUBLIC_DECL_RE ua) ln = None) lines ->
  omap (decl_of_line ua p) (enumerate start lines) = [].
Proof.
  intros Hnone. revert start. induction Hnone as [|ln lines Hln _ IH]; intros start; [done|].
  cbn [enumerate omap list_omap]. unfold decl_of_line at 1. simpl.
  rewrite Hln. simpl. apply IH.
Qed.

Lemma scan_text_file p text d : d ∈ scan_text ua p text -> file d = p.
Proof.
  rewrite scan_text_omap. by intros (i & ln & m & _ & _ & ->)%elem_of_scan_lines.
Qed.
End ScanFacts.

(** C6: the scan of a file gives one record for each line that matches and
    none for the others, numbers the lines from 1, lists the records by
    strictly increasing line number, and gives nothing for a file without a
    matching line. *)
Theorem C6_one_record_per_matching_line (ua : N -> bool) (p : list (list N)) (text : list N) :
  scan_text ua p text = omap (decl_of_line ua p) (enumerate 1 (splitlines text))
  /\ length (scan_text ua p text)
     = length (filter (fun ln => is_Some (re_match (PUBLIC_DECL_RE ua) ln))
                      (splitlines text))
  /\ (forall d, d ∈ scan_text ua p text <->
        exists i ln m, splitlines text !! i = Some ln
          /\ re_match (PUBLIC_DECL_RE ua) ln = Some m
          /\ d = {| kind := group m 1; name := group m 2; file := p; line := S i |})
  /\ StronglySorted lt (line <$> scan_text ua p text)
  /\ (Forall (fun ln => re_match (PUBLIC_DECL_RE ua) ln = None) (splitlines text) ->
      scan_text ua p text = []).
Proof.
  rewrite scan_text_omap. split_and!.
  - done.
  - apply length_scan_lines.
  - intros d. apply elem_of_scan_lines.
  - apply sorted_scan_lines.
  - apply scan_lines_none.
Qed.

(** ** The lines that give a declaration *)

Lemma decl_shape_app ua ln k n t : decl_shape ua ln k n -> decl_shape ua (ln ++ t) k n.
Proof.
  intros (ws1 & q & ws2 & c & w & rest & -> & ? & ? & ? & ? & ? & ? & ? & ? & ?).
  exists ws1, q, ws2, c, w, (rest ++ t). split_and!; try done.
  by rewrite <- !app_assoc.
Qed.

Lemma scan_step_shape ua p i ln decls :
  (exists k n, decl_shape ua ln k n
     /\ scan_step ua p decls (i, ln)
        = decls ++ [{| kind := k; name := n; file := p; line := i |}])
  \/ ((forall k n, ~ decl_shape ua ln k n) /\ scan_step ua p decls (i, ln) = decls).
Proof.
  unfold scan_step. simpl.
  destruct (re_match (PUBLIC_DECL_RE ua) ln) as [m|] eqn:Hm.
  - left. exists (group m 1), (group m 2). split; [|done].
    by apply re_match_decl_sound.
  - right. split; [|done]. intros k n [m Hm']%re_match_decl_complete. congruence.
Qed.

Lemma is_word_ascii ua c : is_word ua c = true -> c < 128 -> is_ident_ascii c = true.
Proof.
  unfold is_word, is_alnum, is_ident_ascii, is_ident_start, is_alnum_ascii.
  intros Hw Hc. apply N.ltb_lt in Hc. change 0x80 with 128 in Hw. rewrite Hc in Hw.
  destruct (is_upper_ascii c), (is_lower_ascii c), (is_digit_ascii c), (c =? 95); done.
Qed.

Lemma all_word_ascii ua w :
  all_in (is_word ua) w -> Forall (fun c => c < 128) w ->
  forallb is_ident_ascii w = true.
Proof.
  induction 1 as [|x w Hx Hw IH]; [done|].
  intros [Hx128 Hascii]%Forall_cons. simpl.
  rewrite (is_word_ascii ua x Hx Hx128). by apply IH.
Qed.

(** C1, as the code has it: a numbered line gives a record exactly when it
    begins, at its first character, with [public], white space, optionally
    [final] and white space, one of the nine keywords, white space and an
    identifier; the record carries that keyword and identifier, and what
    follows the identifier does not matter. *)
Theorem C1_line_emits_iff_shape (ua : N -> bool) (p : list (list N)) (i : nat)
    (ln : list N) (decls : list Decl) :
  ((exists k n, decl_shape ua ln k n
      /\ scan_step ua p decls (i, ln)
         = decls ++ [{| kind := k; name := n; file := p; line := i |}])
   \/ ((forall k n, ~ decl_shape ua ln k n) /\ scan_step ua p decls (i, ln) = decls))
  /\ (forall t, (exists k n, decl_shape ua ln k n) ->
        exists k n, decl_shape ua (ln ++ t) k n
          /\ scan_step ua p decls (i, ln ++ t)
             = decls ++ [{| kind := k; name := n; file := p; line := i |}]).
Proof.
  split; [apply scan_step_shape|].
  intros t (k & n & Hs). apply (decl_shape_app _ _ _ _ t) in Hs.
  destruct (scan_step_shape ua p i (ln ++ t) decls) as [?|[Hno _]]; [done|].
  by destruct (Hno k n).
Qed.

(** C1, as stated, fails: a line that fits the shape after two spaces is in
    the shape of the specification and gives no record. *)
Lemma C1_leading_whitespace_not_matched :
  let ln := lit "  public struct Foo {" in
  (forall ua, spec_decl_shape ua ln (lit "struct") (lit "Foo"))
  /\ (forall ua p i decls, scan_step ua p decls (i, ln) = decls).
Proof.
  split.
  - intros ua. exists (lit "  "), (lit "public struct Foo {"). split_and!.
    + done.
    + repeat constructor.
    + exists (lit " "), [], (lit " "), 70, (lit "oo"), (lit " {").
      split_and!; try done; repeat constructor.
  - intros ua p i decls. reflexivity.
Qed.

(** C10, as the code has it: every record has one of the nine keywords as
    its kind and a name that starts with an ASCII letter or an underscore
    and goes on with word characters in the sense of [\w], which on ASCII
    are letters, digits and the underscore; its line has nothing but an
    optional [final] between [public] and the keyword. *)
Theorem C10_kinds_and_names (ua : N -> bool) (p : list (list N)) (text : list N) :
  Forall (fun d =>
            kind d ∈ KINDS
            /\ (exists c w, name d = c :: w /\ is_ident_start c = true
                            /\ all_in (is_word ua) w)
            /\ (Forall (fun c => c < 128) (name d) -> ascii_identifier (name d) = true)
            /\ exists ln, ln ∈ splitlines text /\ decl_shape ua ln (kind d) (name d))
         (scan_text ua p text)
  /\ length KINDS = 9%nat /\ NoDup KINDS
  /\ scan_text ua p (lit "public static func run() {}") = [].
Proof.
  split_and!.
  - apply Forall_forall. intros d Hd.
    rewrite scan_text_omap in Hd.
    apply elem_of_scan_lines in Hd as (i & ln & m & Hln & Hm & ->). simpl.
    pose proof (re_match_decl_sound _ _ _ Hm) as Hs.
    pose proof Hs as (ws1 & q & ws2 & c & w & rest & _ & _ & _ & _ & Hk & _ & _ & Hn & Hc & Hw).
    split_and!.
    + done.
    + by exists c, w.
    + rewrite Hn. intros Hascii. simpl. rewrite Hc. simpl.
      apply Forall_cons in Hascii as [_ Hascii]. by apply (all_word_ascii ua).
    + exists ln. split; [by eapply list_elem_of_lookup_2|done].
  - done.
  - apply (bool_decide_unpack (NoDup KINDS)). by vm_compute.
  - reflexivity.
Qed.

(** C10, as stated, fails: the name of a record can have a character
    outside [[A-Za-z0-9_]], here U+00E9. *)
Lemma C10_name_beyond_ascii :
  let text := lit "public struct Caf" ++ [233] in
  (forall ua p, scan_text ua p text
     = [{| kind := lit "struct"; name := lit "Caf" ++ [233]; file := p; line := 1 |}])
  /\ ascii_identifier (lit "Caf" ++ [233]) = false.
Proof. split; [intros ua p|]; reflexivity. Qed.

(** ** Reading a file *)

(** C7: the scan of a file ends in an exception exactly when a read fails
    for a reason other than decoding; after a decoding error the file is
    read again with replacement characters and that text is scanned; the
    error of the operating system goes up unchanged. *)
Theorem C7_only_os_errors_escape (ua : N -> bool) (fs : node) (p : list (list N)) :
  ((exists e, scan_file ua fs p = inl e) <->
     (exists e, read_text fs p = ReadOSError e)
     \/ (read_text fs p = ReadDecodeError /\ exists e, read_text_replace fs p = inl e))
  /\ (forall e, scan_file ua fs p = inl e ->
        exists e', e = OSError e'
          /\ (read_text fs p = ReadOSError e'
              \/ (read_text fs p = ReadDecodeError /\ read_text_replace fs p = inl e')))
  /\ (forall text, read_text fs p = ReadDecodeError ->
        read_text_replace fs p = inr text ->
        scan_file ua fs p = inr (scan_text ua p text))
  /\ (forall text, read_text fs p = ReadOk text ->
        scan_file ua fs p = inr (scan_text ua p text)).
Proof.
  unfold scan_file.
  destruct (read_text fs p) as [text| |e1]; [| destruct (read_text_replace fs p) as [e2|text] |].
  all: split_and!.
  all: try (split; [intros [? ?]; done|intros [[? ?]|[? [? ?]]]; done]).
  all: try (intros; simplify_eq; done).
  - split; [|by eauto]. intros _. right. eauto.
  - intros e [= <-]. exists e2. eauto.
  - split; [|by eauto]. intros _. left. eauto.
  - intros e [= <-]. exists e1. eauto.
Qed.

Lemma readable_scan_file ua fs p :
  readable fs p = true <-> exists ds, scan_file ua fs p = inr ds.
Proof.
  unfold readable, scan_file.
  destruct (read_text fs p); [|destruct (read_text_replace fs p)|];
    split; try done; try (intros [? ?]; done); eauto.
Qed.

(** ** Discovery *)

Section DiscoveryFacts.
Variable ua : N -> bool.
Variable ul : list N -> N -> list N -> list N.

Lemma scan_files_inr fs files acc decls :
  scan_files ua fs files acc = inr decls <->
  exists dss, Forall2 (fun f ds => scan_file ua fs f = inr ds) files dss
              /\ decls = acc ++ concat dss.
Proof.
  revert acc. induction files as [|f files IH]; intros acc; simpl.
  - split.
    + intros [= <-]. exists []. split; [constructor|by rewrite app_nil_r].
    + intros (dss & ->%Forall2_nil_inv_l & ->). simpl. by rewrite app_nil_r.
  - destruct (scan_file ua fs f) as [e|ds] eqn:Hf.
    + split; [done|]. intros (dss & Hall & _).
      apply Forall2_cons_inv_l in Hall as (ds & dss' & Hds & _ & _). congruence.
    + rewrite IH. split.
      * intros (dss & Hall & ->). exists (ds :: dss). split; [by constructor|].
        simpl. by rewrite <- app_assoc.
      * intros (dss & Hall & ->).
        apply Forall2_cons_inv_l in Hall as (ds' & dss' & Hds & Hall & ->).
        assert (ds' = ds) as -> by congruence.
        exists dss'. split; [done|]. simpl. by rewrite <- app_assoc.
Qed.

Lemma scan_file_file fs f ds d : scan_file ua fs f = inr ds -> d ∈ ds -> file d = f.
Proof.
  unfold scan_file. intros Hf Hd.
  destruct (read_text fs f); [|destruct (read_text_replace fs f)|]; simplify_eq;
    by eapply scan_text_file.
Qed.

Lemma scan_files_file fs files decls d :
  scan_files ua fs files [] = inr decls -> d ∈ decls -> file d ∈ files.
Proof.
  intros (dss & Hall & ->)%scan_files_inr. simpl.
  induction Hall as [|f ds files dss Hf _ IH]; simpl; [by intros ?%elem_of_nil|].
  intros [Hd|Hd]%elem_of_app.
  - rewrite (scan_file_file _ _ _ _ Hf Hd). apply list_elem_of_here.
  - by apply list_elem_of_further, IH.
Qed.

Lemma skipped_iff p :
  skipped ul p = true <->
  exists seg, seg ∈ parts p
    /\ (str_lower ul seg = lit ".build" \/ str_lower ul seg = lit ".swiftpm").
Proof.
  unfold skipped. rewrite orb_true_iff, !bool_decide_eq_true, !elem_of_list_to_set,
    !list_elem_of_fmap.
  split.
  - intros [(seg & Heq & Hseg)|(seg & Heq & Hseg)]; exists seg; auto.
  - intros (seg & Hseg & [Heq|Heq]); [left|right]; exists seg; auto.
Qed.

Lemma iter_swift_files_inr fs dir files :
  iter_swift_files ul fs dir = inr files <->
  exists found, rglob fs dir = inr found
    /\ files = filter (fun p => skipped ul p = false) found.
Proof.
  unfold iter_swift_files. destruct (rglob fs dir) as [e|found].
  - split; [done|]. by intros (? & ? & _).
  - split.
    + intros [= <-]. by exists found.
    + by intros (? & [= <-] & ->).
Qed.

Lemma iter_swift_files_inl fs dir e :
  iter_swift_files ul fs dir = inl e <-> rglob fs dir = inl e.
Proof.
  unfold iter_swift_files. destruct (rglob fs dir); split; congruence.
Qed.
End DiscoveryFacts.

(** C5: a path with a segment that is [.build] or [.swiftpm] up to case is
    never among the discovered files; it is not counted and no declaration
    comes from it.  Discovery yields its files when the walk gives its
    paths, and when the walk fails discovery fails with it and yields
    nothing. *)
Theorem C5_build_directories_excluded (ua : N -> bool) (ul : list N -> N -> list N -> list N)
    (fs : node) (dir p : list (list N)) :
  (exists seg, seg ∈ parts p
     /\ (str_lower ul seg = lit ".build" \/ str_lower ul seg = lit ".swiftpm")) ->
  (forall found, rglob fs dir = inr found ->
   exists files, iter_swift_files ul fs dir = inr files
     /\ (p ∉ files)
     /\ length files
        = length (filter (fun q => q <> p /\ skipped ul q = false) found)
     /\ (forall decls, scan_files ua fs files [] = inr decls ->
           forall d, d ∈ decls -> file d <> p))
  /\ (forall e, rglob fs dir = inl e -> iter_swift_files ul fs dir = inl e).
Proof.
  intros Hseg%skipped_iff. split; [|intros e; apply iter_swift_files_inl].
  intros found Hfound.
  exists (filter (fun q => skipped ul q = false) found).
  assert (p ∉ filter (fun q => skipped ul q = false) found) as Hnot.
  { intros [Hp _]%list_elem_of_filter. congruence. }
  split_and!.
  - apply iter_swift_files_inr. by exists found.
  - done.
  - f_equal. apply list_filter_iff. intros q. split.
    + intros Hq. split; [|done]. intros ->. congruence.
    + by intros [_ ?].
  - intros decls Hdecls d Hd Heq. apply Hnot. rewrite <- Heq.
    by eapply scan_files_file.
Qed.

(** C5 on the sample checkout: the file below [.Build] is found by the walk
    and left out. *)
Lemma C5_sample_build_directory :
  let dir := sources_of repo ++ [lit "ModA"] in
  let p := dir ++ [lit ".Build"; lit "X.swift"] in
  let found := [dir ++ [lit "A.swift"]; p] in
  rglob sample_fs dir = inr found
  /\ exists files, iter_swift_files lower_unchanged sample_fs dir = inr files
       /\ (p ∉ files)
       /\ length files
          = length (filter (fun q => q <> p /\ skipped lower_unchanged q = false) found)
       /\ (forall decls, scan_files no_alnum_above sample_fs files [] = inr decls ->
             forall d, d ∈ decls -> file d <> p).
Proof.
  intros dir p found. split; [reflexivity|].
  apply (C5_build_directories_excluded no_alnum_above lower_unchanged sample_fs dir p).
  - exists (lit ".Build"). split.
    + apply (bool_decide_unpack _). by vm_compute.
    + left. reflexivity.
  - reflexivity.
Defined.

(** C3 on the sample declarations, read in either order of the files. *)
Lemma C3_sample_two_orders :
  StronglySorted key_lt (key <$> aggregate (concat [sample_decls_a; sample_decls_b]))
  /\ key <$> aggregate (concat [sample_decls_a; sample_decls_b])
     = key <$> aggregate (concat [sample_decls_b; sample_decls_a]).
Proof. apply C3_sorted_whatever_the_file_order. apply perm_swap. Defined.

(** ** Printing *)

Lemma bind_print {B} s (k : unit -> M B) :
  bind (print s) k = (s :: (k tt).1, (k tt).2).
Proof. done. Qed.

Lemma bind_inr {A B} out (a : A) (k : A -> M B) :
  bind (out, inr a) k = (out ++ (k a).1, (k a).2).
Proof. done. Qed.

Lemma for_each_inr {A} (body : A -> M unit) xs :
  Forall (fun x => (body x).2 = inr tt) xs ->
  for_each xs body = (concat ((fun x => (body x).1) <$> xs), inr tt).
Proof.
  induction 1 as [|x xs Hx _ IH]; [done|].
  cbn [for_each]. destruct (body x) as [out r] eqn:Hb. simpl in Hx. subst r.
  rewrite bind_inr, IH. rewrite fmap_cons, Hb. done.
Qed.

Lemma for_each_entries root ds :
  Forall (fun d => is_Some (relative_to (file d) root)) ds ->
  for_each ds (entry_line root) = (entry_of root <$> ds, inr tt).
Proof.
  induction 1 as [|d ds [rel Hd] _ IH]; [done|].
  cbn [for_each]. unfold entry_line at 1. rewrite Hd, bind_print, IH.
  rewrite fmap_cons.
  assert (entry_of root d = entry_text rel d) as -> by (unfold entry_of; by rewrite Hd).
  done.
Qed.

Lemma render_listing_inr root unique :
  Forall (fun d => is_Some (relative_to (file d) root)) unique ->
  render_listing root unique
  = (if decide (length unique = 0)%nat then []
     else (entry_of root <$> take 60 unique)
          ++ (if decide (60 < length unique)%nat then [more_line (length unique)] else [])
          ++ [[]],
     inr tt).
Proof.
  intros Hrel. destruct unique as [|d0 unique]; [done|].
  unfold render_listing. set (u := d0 :: unique) in *.
  rewrite decide_False by done.
  rewrite for_each_entries by (by apply Forall_take).
  rewrite bind_inr. destruct (decide (60 < length u)%nat) as [Hlt|Hge].
  - apply Nat.ltb_lt in Hlt. rewrite Hlt. done.
  - apply Nat.ltb_nlt in Hge. rewrite Hge. done.
Qed.

(** C4: a module with [n] unique declarations gets [min n 60] entry lines;
    beyond 60 one more line gives the number [n - 60] of those left out,
    and up to 60 there is no such line. *)
Theorem C4_listing_capped_at_60 (root : list (list N)) (unique : list Decl) :
  Forall (fun d => is_Some (relative_to (file d) root)) unique ->
  let n := length unique in
  render_listing root unique
  = (if decide (n = 0)%nat then []
     else (entry_of root <$> take 60 unique)
          ++ (if decide (60 < n)%nat then [more_line n] else [])
          ++ [[]],
     inr tt)
  /\ length (entry_of root <$> take 60 unique) = (n `min` 60)%nat
  /\ more_line n = lit "- ... (" ++ str_of_nat (n - 60) ++ lit " more)"
  /\ (n = 61%nat -> more_line n = lit "- ... (1 more)").
Proof.
  intros Hrel n. split_and!.
  - by apply render_listing_inr.
  - rewrite length_fmap, length_take. lia.
  - done.
  - intros ->. done.
Qed.

(** C4 on sixty-one declarations: sixty entries, then the line for the one
    left out, then the empty line. *)
Lemma C4_sample_61 :
  (render_listing repo sample_decls_61).1
  = (entry_of repo <$> take 60 sample_decls_61) ++ [lit "- ... (1 more)"; []]
  /\ length (entry_of repo <$> take 60 sample_decls_61) = 60%nat.
Proof.
  assert (Forall (fun d => is_Some (relative_to (file d) repo)) sample_decls_61) as Hrel.
  { apply (bool_decide_unpack _). by vm_compute. }
  destruct (C4_listing_capped_at_60 repo sample_decls_61 Hrel) as (Heq & Hlen & _ & _).
  split.
  - rewrite Heq. reflexivity.
  - rewrite Hlen. reflexivity.
Defined.

(** ** The report of a module *)

Section ModuleFacts.
Variable ua : N -> bool.
Variable ul : list N -> N -> list N -> list N.

Lemma render_module_inr fs root m files decls :
  iter_swift_files ul fs m = inr files ->
  scan_files ua fs files [] = inr decls ->
  render_module ua ul fs root m
  = (module_head m (length files) (length (aggregate decls))
     ++ (render_listing root (aggregate decls)).1,
     (render_listing root (aggregate decls)).2).
Proof.
  intros Hfiles Hscan. unfold render_module. rewrite Hfiles. unfold lift.
  rewrite bind_inr, Hscan, bind_inr, !bind_print, bind_inr, !bind_print. done.
Qed.

Lemma render_module_inl fs root m files e :
  iter_swift_files ul fs m = inr files ->
  scan_files ua fs files [] = inl e ->
  render_module ua ul fs root m = ([], inl e).
Proof.
  intros Hfiles Hscan. unfold render_module. rewrite Hfiles. unfold lift.
  by rewrite bind_inr, Hscan.
Qed.

Lemma render_module_no_walk fs root m e :
  iter_swift_files ul fs m = inl e ->
  render_module ua ul fs root m = ([], inl e).
Proof. intros Hfiles. unfold render_module. by rewrite Hfiles. Qed.

Lemma scan_files_same_key fs files k :
  Forall (fun f => exists d, scan_file ua fs f = inr [d] /\ key d = k) files ->
  forall acc, exists decls,
    scan_files ua fs files acc = inr (acc ++ decls)
    /\ length decls = length files /\ Forall (fun d => key d = k) decls.
Proof.
  induction 1 as [|f files (d & Hf & Hk) _ IH]; intros acc.
  - exists []. simpl. by rewrite app_nil_r.
  - destruct (IH (acc ++ [d])) as (decls & Hscan & Hlen & Hkeys).
    exists (d :: decls). simpl. rewrite Hf, Hscan, <- app_assoc. simpl.
    split_and!; [done|by f_equal|by constructor].
Qed.

Lemma one_key_one_declaration decls k :
  decls <> [] -> Forall (fun d => key d = k) decls -> length (aggregate decls) = 1%nat.
Proof.
  intros Hne Hk.
  assert (forall x, x ∈ key <$> aggregate decls -> x = k) as Hall.
  { intros x Hx. apply (proj1 (keys_aggregate decls x)) in Hx.
    apply list_elem_of_fmap in Hx as (d & -> & Hd).
    rewrite Forall_forall in Hk. by apply Hk. }
  assert (k ∈ key <$> aggregate decls) as Hin.
  { apply keys_aggregate. destruct decls as [|d decls]; [done|].
    apply Forall_cons in Hk as [<- _]. rewrite fmap_cons. apply list_elem_of_here. }
  pose proof (NoDup_keys_aggregate decls) as Hnd.
  rewrite <- (length_fmap key).
  destruct (key <$> aggregate decls) as [|a [|b l]].
  - by apply elem_of_nil in Hin.
  - done.
  - assert (a = k) as -> by (apply Hall, list_elem_of_here).
    assert (b = k) as -> by (apply Hall, list_elem_of_further, list_elem_of_here).
    apply NoDup_cons in Hnd as [Hnd _]. destruct Hnd. apply list_elem_of_here.
Qed.
End ModuleFacts.

Lemma is_dir_rglob fs m : is_dir fs m = inr true -> exists found, rglob fs m = inr found.
Proof. intros Hdir. unfold rglob. rewrite Hdir. by eexists. Qed.

(** C9: the number of files printed for a module is the number of paths
    that the walk finds and the exclusion rule keeps, obtained by running
    discovery once more; a module without such a file prints 0 files and 0
    declarations and raises nothing; a module of [N >= 1] such files that
    each hold the same single declaration prints [N] files and 1
    declaration.  The walk of a directory raises nothing; where the walk
    fails, the module ends with that error and nothing is printed for it. *)
Theorem C9_file_count (ua : N -> bool) (ul : list N -> N -> list N -> list N)
    (fs : node) (root m : list (list N)) :
  (is_dir fs m = inr true -> exists found, rglob fs m = inr found)
  /\ (forall found, rglob fs m = inr found ->
      let files := filter (fun p => skipped ul p = false) found in
      iter_swift_files ul fs m = inr files
      /\ (forall decls, scan_files ua fs files [] = inr decls ->
            render_module ua ul fs root m
            = (module_head m (length files) (length (aggregate decls))
               ++ (render_listing root (aggregate decls)).1,
               (render_listing root (aggregate decls)).2))
      /\ (files = [] ->
          scan_files ua fs files [] = inr []
          /\ render_module ua ul fs root m = (module_head m 0 0, inr tt))
      /\ (forall k, files <> [] ->
            Forall (fun f => exists d, scan_file ua fs f = inr [d] /\ key d = k) files ->
            exists decls listing r,
              scan_files ua fs files [] = inr decls
              /\ length (aggregate decls) = 1%nat
              /\ render_module ua ul fs root m
                 = (module_head m (length files) 1 ++ listing, r)))
  /\ (forall e, rglob fs m = inl e ->
        iter_swift_files ul fs m = inl e
        /\ render_module ua ul fs root m = ([], inl e)).
Proof.
  split; [apply is_dir_rglob|]. split; cycle 1.
  { intros e He. apply (iter_swift_files_inl ul) in He. split; [done|].
    by apply render_module_no_walk. }
  intros found Hfound files.
  assert (iter_swift_files ul fs m = inr files) as Hfiles.
  { apply iter_swift_files_inr. by exists found. }
  split_and!.
  - done.
  - intros decls Hscan. by apply render_module_inr.
  - intros Hnone. rewrite Hnone in Hfiles |- *. split; [done|].
    by rewrite (render_module_inr ua ul fs root m [] [] Hfiles).
  - intros k Hne Hall.
    destruct (scan_files_same_key ua fs _ k Hall []) as (decls & Hscan & Hlen & Hk).
    simpl in Hscan.
    assert (length (aggregate decls) = 1%nat) as Hone.
    { apply (one_key_one_declaration decls k); [|done].
      intros ->. destruct files; done. }
    exists decls. eexists _, _. split_and!; [done|done|].
    rewrite (render_module_inr ua ul fs root m files decls Hfiles Hscan), Hone. done.
Qed.

(** C9 on a module of two files with the same declaration, one of them
    read with replacement, and on a module with nothing but a build
    directory. *)
Lemma C9_sample_twins :
  let m := sources_of repo ++ [lit "ModT"] in
  let e := sources_of repo ++ [lit "Empty"] in
  (exists listing r,
     render_module no_alnum_above lower_unchanged twin_fs repo m
     = (module_head m 2 1 ++ listing, r))
  /\ render_module no_alnum_above lower_unchanged twin_fs repo e
     = (module_head e 0 0, inr tt).
Proof.
  intros m e.
  destruct (C9_file_count no_alnum_above lower_unchanged twin_fs repo m)
    as (_ & Hm & _).
  destruct (C9_file_count no_alnum_above lower_unchanged twin_fs repo e)
    as (_ & He & _).
  split.
  - destruct (Hm [m ++ [lit "T1.swift"]; m ++ [lit "T2.swift"]] eq_refl)
      as (_ & _ & _ & Hsame).
    destruct (Hsame (lit "func", lit "run")) as (decls & listing & r & _ & _ & Hr).
    + by vm_compute.
    + repeat constructor; eexists; (split; [by vm_compute|done]).
    + by exists listing, r.
  - destruct (He [e ++ [lit ".build"; lit "Y.swift"]] eq_refl) as (_ & _ & Hnone & _).
    apply Hnone. by vm_compute.
Defined.

(** ** The whole run *)

Lemma node_ind' (P : node -> Prop) :
  (forall f, P (File f)) ->
  (forall r x es, Forall (fun e => P e.2) es -> P (Dir r x es)) ->
  forall n, P n.
Proof.
  intros Hfile Hdir. fix IH 1. intros [f|r x es]; [apply Hfile|].
  apply Hdir. induction es as [|[nm c] es IHes]; constructor; [apply IH|apply IHes].
Qed.

Lemma rglob_node_below n : forall base p,
  p ∈ rglob_node base n -> exists rel, rel <> [] /\ p = base ++ rel.
Proof.
  induction n as [f|r x es IH] using node_ind'; intros base p; simpl.
  - by intros ?%elem_of_nil.
  - destruct r; [|by intros ?%elem_of_nil].
    intros [Hp|Hp]%elem_of_app.
    + apply list_elem_of_fmap in Hp as (e & -> & _). by exists [e.1].
    + destruct x; [|by apply elem_of_nil in Hp].
      induction IH as [|[nm c] es Hc _ IHes]; [by apply elem_of_nil in Hp|].
      apply elem_of_app in Hp as [Hp|Hp]; [|by apply IHes].
      destruct (Hc _ _ Hp) as (rel & _ & ->). exists (nm :: rel).
      split; [done|by rewrite <- app_assoc].
Qed.

Lemma rglob_inr fs dir found :
  rglob fs dir = inr found ->
  found = [] \/ exists n, resolve fs dir = Found n /\ found = rglob_node dir n.
Proof.
  unfold rglob. destruct (is_dir fs dir) as [e|[|]]; [done| |intros [= <-]; by left].
  intros [= <-]. destruct (resolve fs dir) as [n| | |]; [right; by exists n|by left..].
Qed.

Lemma rglob_below fs dir found p :
  rglob fs dir = inr found -> p ∈ found -> exists rel, rel <> [] /\ p = dir ++ rel.
Proof.
  intros [->|(n & _ & ->)]%rglob_inr; [by intros ?%elem_of_nil|].
  apply rglob_node_below.
Qed.

Lemma relative_to_app root rel : relative_to (root ++ rel) root = Some rel.
Proof.
  induction root as [|x root IH]; simpl; [by destruct rel|].
  by rewrite decide_True.
Qed.

(** The errors of the calls on paths are those of the operating system. *)
Lemma path_exists_inl fs p e : path_exists fs p = inl e -> e = OSError PermissionError.
Proof.
  unfold path_exists, stat. destruct (resolve fs p); simpl; congruence.
Qed.






Lemma keep_dirs_elem fs entries dirs :
  keep_dirs fs entries = inr dirs ->
  forall p, p ∈ dirs <-> p ∈ entries /\ is_dir fs p = inr true.
Proof.
  revert dirs. induction entries as [|q entries IH]; intros dirs; simpl.
  - intros [= <-] p. split; [by intros ?%elem_of_nil|by intros [?%elem_of_nil _]].
  - destruct (is_dir fs q) as [e|b] eqn:Hq; [done|].
    destruct (keep_dirs fs entries) as [e|dirs'] eqn:Hkeep; [done|].
    intros [= <-] p. specialize (IH dirs' eq_refl p).
    destruct b.
    + rewrite !elem_of_cons, IH. split.
      * intros [->|[? ?]]; auto.
      * intros [[->|?] ?]; auto.
    + rewrite elem_of_cons, IH. split.
      * intros [? ?]; auto.
      * intros [[->|?] ?]; [congruence|auto].
Qed.

Lemma iterdir_elem fs src entries p :
  iterdir fs src = inr entries -> p ∈ entries -> exists nm, p = src ++ [nm].
Proof.
  unfold iterdir. destruct (stat fs src) as [oe|[f|[|] x es]]; try done.
  intros [= <-] (e & -> & _)%list_elem_of_fmap. by eexists.
Qed.

Lemma modules_of_elem fs src modules m :
  modules_of fs src = inr modules -> m ∈ modules ->
  is_dir fs m = inr true /\ exists nm, m = src ++ [nm].
Proof.
  unfold modules_of. destruct (iterdir fs src) as [e|entries] eqn:Hit; [done|].
  destruct (keep_dirs fs entries) as [e|dirs] eqn:Hkeep; [done|].
  intros [= <-]. rewrite sort_by_perm.
  intros [Hm Hdir]%(keep_dirs_elem _ _ _ Hkeep). split; [done|].
  by eapply iterdir_elem.
Qed.

Lemma module_dirs_elem fs root m :
  m ∈ module_dirs fs root ->
  is_dir fs m = inr true /\ exists nm, m = sources_of root ++ [nm].
Proof.
  unfold module_dirs. destruct (modules_of fs (sources_of root)) as [e|modules] eqn:Hms.
  - by intros ?%elem_of_nil.
  - by apply modules_of_elem.
Qed.

(** A directory that is reached and may be listed and searched gives its
    modules without an error. *)
Lemma keep_dirs_searchable fs src r es (es' : list (list N * node)) :
  resolve fs src = Found (Dir r true es) ->
  (forall e, e ∈ es' -> exists c, resolve fs (src ++ [e.1]) = Found c) ->
  exists dirs, keep_dirs fs ((fun e => src ++ [e.1]) <$> es') = inr dirs.
Proof.
  intros Hsrc. induction es' as [|e es' IH]; intros Hall; [by eexists|].
  destruct IH as [dirs Hdirs]; [intros e' He'; by apply Hall, list_elem_of_further|].
  destruct (Hall e) as [c Hc]; [apply list_elem_of_here|].
  rewrite fmap_cons. cbn [keep_dirs]. rewrite Hdirs.
  unfold is_dir, stat. rewrite Hc. destruct c; by eexists.
Qed.

Lemma resolve_app n : forall p q,
  resolve n (p ++ q)
  = match resolve n p with Found c => resolve c q | r => r end.
Proof.
  induction n as [f|r x es IH] using node_ind'; intros [|seg p] q; simpl.
  - by destruct q.
  - done.
  - done.
  - destruct x; [|done].
    induction IH as [|[nm c] es Hc _ IHes]; [done|].
    destruct (decide (nm = seg)); [apply Hc|apply IHes].
Qed.

Lemma resolve_entry r es (e : list N * node) :
  e ∈ es -> exists c, resolve (Dir r true es) [e.1] = Found c.
Proof.
  simpl. induction es as [|[nm c] es IH]; [by intros ?%elem_of_nil|].
  intros He. destruct (decide (nm = e.1)) as [|Hne]; [destruct c; by eexists|].
  apply IH. by apply elem_of_cons in He as [->|He].
Qed.

Lemma open_directory_lists fs src es :
  resolve fs src = Found (Dir true true es) ->
  path_exists fs src = inr true
  /\ is_dir fs src = inr true
  /\ exists modules, modules_of fs src = inr modules.
Proof.
  intros Hsrc. unfold path_exists, is_dir, modules_of, iterdir, stat. rewrite Hsrc.
  split_and!; [done|done|].
  destruct (keep_dirs_searchable fs src true es es Hsrc) as [dirs ->]; [|by eexists].
  intros e He. rewrite resolve_app, Hsrc. by apply resolve_entry.
Qed.

Section RunFacts.
Variable ua : N -> bool.
Variable ul : list N -> N -> list N -> list N.

Lemma scan_files_readable fs files :
  Forall (fun f => readable fs f = true) files ->
  forall acc, exists decls, scan_files ua fs files acc = inr decls.
Proof.
  induction 1 as [|f files Hf _ IH]; intros acc; simpl; [by eexists|].
  apply (readable_scan_file ua) in Hf as [ds ->]. apply IH.
Qed.

(** The files of the declarations of a module lie below the root. *)
Lemma module_files_below_root fs root nm files decls :
  iter_swift_files ul fs (sources_of root ++ [nm]) = inr files ->
  scan_files ua fs files [] = inr decls ->
  Forall (fun d => is_Some (relative_to (file d) root)) (aggregate decls).
Proof.
  intros Hfiles Hscan.
  apply Forall_forall. intros d Hd%elem_of_aggregate%first_with_key_elem.
  pose proof (scan_files_file ua fs _ _ d Hscan Hd) as Hfile.
  apply iter_swift_files_inr in Hfiles as (found & Hfound & ->).
  apply list_elem_of_filter in Hfile as [_ Hfile].
  destruct (rglob_below _ _ _ _ Hfound Hfile) as (rel & _ & Hrel).
  rewrite Hrel. unfold sources_of. rewrite <- !app_assoc.
  rewrite relative_to_app. by eexists.
Qed.

Lemma render_module_readable fs root nm files :
  let m := sources_of root ++ [nm] in
  iter_swift_files ul fs m = inr files ->
  Forall (fun f => readable fs f = true) files ->
  (render_module ua ul fs root m).2 = inr tt.
Proof.
  intros m Hfiles Hread. destruct (scan_files_readable fs _ Hread []) as [decls Hscan].
  rewrite (render_module_inr ua ul fs root m files decls Hfiles Hscan). simpl.
  rewrite render_listing_inr; [done|]. by eapply module_files_below_root.
Qed.

Lemma main_missing fs root :
  path_exists fs (sources_of root) = inr false ->
  main ua ul fs root
  = ([], inl (SystemExit (lit "Expected Swift sources at: "
                          ++ path_str (sources_of root)))).
Proof. intros Hno. unfold main. by rewrite Hno. Qed.

Lemma main_no_answer fs root e :
  path_exists fs (sources_of root) = inl e -> main ua ul fs root = ([], inl e).
Proof. intros Hno. unfold main. by rewrite Hno. Qed.

Lemma main_no_modules fs root e :
  path_exists fs (sources_of root) = inr true ->
  modules_of fs (sources_of root) = inl e ->
  main ua ul fs root = ([], inl e).
Proof. intros Hex Hms. unfold main. by rewrite Hex, Hms. Qed.

Lemma main_modules fs root modules :
  path_exists fs (sources_of root) = inr true ->
  modules_of fs (sources_of root) = inr modules ->
  main ua ul fs root
  = (report_head root
     ++ (for_each modules (render_module ua ul fs root)).1,
     match (for_each modules (render_module ua ul fs root)).2 with
     | inr _ => inr 0%nat
     | inl e => inl e
     end).
Proof.
  intros Hex Hms. unfold main. rewrite Hex, Hms. unfold lift.
  rewrite !bind_inr. cbn [negb]. rewrite !bind_print.
  destruct (for_each modules (render_module ua ul fs root)) as [out [e|[]]];
    unfold report_head; simpl.
  - done.
  - by rewrite app_nil_r.
Qed.

Lemma main_readable fs root modules :
  path_exists fs (sources_of root) = inr true ->
  modules_of fs (sources_of root) = inr modules ->
  Forall (fun m => exists files, iter_swift_files ul fs m = inr files
                     /\ Forall (fun f => readable fs f = true) files) modules ->
  Forall (fun m => (render_module ua ul fs root m).2 = inr tt) modules
  /\ main ua ul fs root
     = (report_head root
        ++ concat ((fun m => (render_module ua ul fs root m).1) <$> modules),
        inr 0%nat).
Proof.
  intros Hex Hms Hread.
  assert (Forall (fun m => (render_module ua ul fs root m).2 = inr tt) modules) as Hok.
  { apply Forall_forall. intros m Hm. rewrite Forall_forall in Hread.
    destruct (Hread m Hm) as (files & Hfiles & Hfs).
    destruct (modules_of_elem _ _ _ _ Hms Hm) as [_ [nm ->]].
    by eapply render_module_readable. }
  split; [done|].
  rewrite (main_modules fs root modules Hex Hms), (for_each_inr _ _ Hok). done.
Qed.
End RunFacts.

(** C8, as the code has it: when the check of the sources root answers no,
    the program prints nothing and ends with its message and a status that
    is not 0; when the check itself fails, the program ends with that error,
    nothing printed; when the check answers yes, the directories in the
    sources root are listed without an error, and every discovered file is
    readable, at least with replacement, the whole report is printed and the
    status is 0.  The check answers yes and the directories are listed
    without an error when the sources root is a directory that is reached
    and may be listed and searched. *)
Theorem C8_exit_status (ua : N -> bool) (ul : list N -> N -> list N -> list N)
    (fs : node) (root : list (list N)) :
  (path_exists fs (sources_of root) = inr false ->
     main ua ul fs root
     = ([], inl (SystemExit (lit "Expected Swift sources at: "
                             ++ path_str (sources_of root))))
     /\ exit_status (main ua ul fs root).2 = 1%nat)
  /\ (forall e, path_exists fs (sources_of root) = inl e ->
        main ua ul fs root = ([], inl e)
        /\ exit_status (main ua ul fs root).2 = 1%nat)
  /\ (forall modules,
        path_exists fs (sources_of root) = inr true ->
        modules_of fs (sources_of root) = inr modules ->
        Forall (fun m => exists files, iter_swift_files ul fs m = inr files
                           /\ Forall (fun f => readable fs f = true) files) modules ->
        main ua ul fs root
        = (report_head root
           ++ concat ((fun m => (render_module ua ul fs root m).1) <$> modules),
           inr 0%nat)
        /\ exit_status (main ua ul fs root).2 = 0%nat
        /\ Forall (fun m => (render_module ua ul fs root m).2 = inr tt) modules)
  /\ (forall es,
        resolve fs (sources_of root) = Found (Dir true true es) ->
        path_exists fs (sources_of root) = inr true
        /\ exists modules, modules_of fs (sources_of root) = inr modules).
Proof.
  split_and!.
  - intros Hno. rewrite (main_missing ua ul fs root Hno). done.
  - intros e He. rewrite (main_no_answer ua ul fs root e He). done.
  - intros modules Hex Hms Hread.
    destruct (main_readable ua ul fs root modules Hex Hms Hread) as [Hok Hmain].
    rewrite Hmain. done.
  - intros es Hsrc. by destruct (open_directory_lists fs _ es Hsrc) as (? & _ & ?).
Qed.

(** C8, as stated, fails: the sources root exists, a file cannot be read,
    and the run ends after the head of the report with a status that is
    not 0. *)
Lemma C8_unreadable_file_aborts :
  path_exists locked_fs (sources_of repo) = inr true
  /\ (forall ua ul, main ua ul locked_fs repo
                    = (report_head repo, inl (OSError PermissionError)))
  /\ exit_status (inl (OSError PermissionError)) = 1%nat.
Proof. split_and!; [done| |done]. intros ua ul. reflexivity. Qed.

(** C8 on the sample checkout: both modules are printed and the status is
    0. *)
Lemma C8_sample_run :
  let modules := [sources_of repo ++ [lit "ModA"]; sources_of repo ++ [lit "ModB"]] in
  main no_alnum_above lower_unchanged sample_fs repo
  = (report_head repo
     ++ concat ((fun m => (render_module no_alnum_above lower_unchanged sample_fs repo m).1)
                <$> modules),
     inr 0%nat)
  /\ exit_status (main no_alnum_above lower_unchanged sample_fs repo).2 = 0%nat
  /\ Forall (fun m => (render_module no_alnum_above lower_unchanged sample_fs repo m).2
                      = inr tt)
            modules.
Proof.
  intros modules.
  destruct (C8_exit_status no_alnum_above lower_unchanged sample_fs repo)
    as (_ & _ & Hfull & _).
  apply (Hfull modules).
  - reflexivity.
  - reflexivity.
  - repeat constructor; eexists; (split; [reflexivity|]);
      apply (bool_decide_unpack _); by vm_compute.
Defined.

(** ** The identifier recorded is the longest one *)

Lemma match_star_total {R} p s (k : list N -> option R) :
  (forall s', is_Some (k s')) -> match_star p s k = k (after_run p s).
Proof.
  intros Hk. induction s as [|c s IH]; simpl; [done|].
  destruct (p c); [|done]. rewrite IH. by destruct (Hk (after_run p s)) as [r ->].
Qed.

Lemma after_run_suffix p s : exists u, s = u ++ after_run p s /\ all_in p u.
Proof.
  induction s as [|c s (u & Hs & Hu)]; simpl.
  - exists []. split; [done|constructor].
  - destruct (p c) eqn:Hc.
    + exists (c :: u). split; [simpl; congruence|by constructor].
    + exists []. split; [done|constructor].
Qed.

Lemma after_run_head p s c s' : after_run p s = c :: s' -> p c = false.
Proof.
  induction s as [|x s IH]; simpl; [done|].
  destruct (p x) eqn:Hx; [done|]. congruence.
Qed.

Lemma rmatch_seq_sound {R} total r1 r2 s g (k : list N -> gmap nat (list N) -> option R) x :
  rmatch total (RSeq r1 r2) s g k = Some x ->
  exists s' g', matches total r1 s s' g g' /\ rmatch total r2 s' g' k = Some x.
Proof. apply (rmatch_sound total r1). Qed.

(** ** The model on samples *)

Example splitlines_sample :
  splitlines (lit "a" ++ [13; 10] ++ lit "b" ++ [10; 10] ++ lit "c" ++ [13])
  = [lit "a"; lit "b"; []; lit "c"].
Proof. reflexivity. Qed.

Example public_final_class_sample :
  scan_text no_alnum_above [lit "A.swift"]
    (lit "import Foundation" ++ [10] ++ lit "public final class Store_2: Base {")
  = [{| kind := lit "class"; name := lit "Store_2"; file := [lit "A.swift"]; line := 2 |}].
Proof. reflexivity. Qed.

Example sample_report :
  main no_alnum_above lower_unchanged sample_fs repo
  = ([ lit "# Hive Public API (Heuristic Map)"; [];
       lit "- Root: `/repo`";
       lit "- Sources: `/repo/libs/hive/Sources`";
       lit "- Note: This is regex-based; it may miss symbols declared across multiple lines.";
       [];
       lit "## ModA"; [];
       lit "- Files scanned: 1";
       lit "- Public decls (unique): 1"; [];
       lit "- `struct Widget` (libs/hive/Sources/ModA/A.swift:3)"; [];
       lit "## ModB"; [];
       lit "- Files scanned: 1";
       lit "- Public decls (unique): 1"; [];
       lit "- `func run` (libs/hive/Sources/ModB/B.swift:1)"; [] ],
     inr 0%nat).
Proof. reflexivity. Qed.

(** A directory that may not be listed is passed over by the walk. *)
Example sealed_directory_sample :
  rglob sealed_fs (sources_of repo ++ [lit "ModA"])
  = inr [sources_of repo ++ [lit "ModA"; lit "A.swift"]]
  /\ rglob sealed_fs (sources_of repo ++ [lit "ModA"; lit "Private"]) = inr [].
Proof. split; reflexivity. Qed.

(** The walk yields the names of a directory that may be listed, goes on
    below it only if it may be searched too, and starts from a directory
    only if that directory is reached. *)
Example mixed_access_sample :
  let m := sources_of repo ++ [lit "M"] in
  rglob mixed_fs m = inr [m ++ [lit "A.swift"]; m ++ [lit "Listed"; lit "F.swift"]]
  /\ rglob mixed_fs (m ++ [lit "Searched"; lit "sub"])
     = inr [m ++ [lit "Searched"; lit "sub"; lit "G.swift"]]
  /\ rglob mixed_fs (m ++ [lit "Listed"; lit "sub"]) = inl (OSError PermissionError)
  /\ rglob mixed_fs (m ++ [lit "A.swift"]) = inr []
  /\ rglob mixed_fs (m ++ [lit "Nowhere"]) = inr []
  /\ read_text mixed_fs (m ++ [lit "Listed"; lit "F.swift"]) = ReadOSError PermissionError
  /\ read_text mixed_fs (m ++ [lit "Searched"; lit "F.swift"]) = ReadOk [].
Proof. intros m. split_and!; reflexivity. Qed.

(** A sources root that may not be listed ends the run at [iterdir]. *)
Example unlisted_sources_sample :
  path_exists unlisted_fs (sources_of repo) = inr true
  /\ iterdir unlisted_fs (sources_of repo) = inl (OSError PermissionError)
  /\ main no_alnum_above lower_unchanged unlisted_fs repo
     = ([], inl (OSError PermissionError)).
Proof. split_and!; reflexivity. Qed.

(** A sources root that may be listed and not searched ends the run at the
    first [is_dir]. *)
Example unsearched_sources_sample :
  iterdir unsearched_fs (sources_of repo) = inr [sources_of repo ++ [lit "ModA"]]
  /\ is_dir unsearched_fs (sources_of repo ++ [lit "ModA"]) = inl (OSError PermissionError)
  /\ main no_alnum_above lower_unchanged unsearched_fs repo
     = ([], inl (OSError PermissionError)).
Proof. split_and!; reflexivity. Qed.

(** Below a directory that may not be searched the check of the sources
    root fails, whether there is a sources root or not. *)
Example barred_checkout_sample :
  path_exists (barred_fs []) (sources_of repo) = inl (OSError PermissionError)
  /\ main no_alnum_above lower_unchanged (barred_fs []) repo
     = ([], inl (OSError PermissionError))
  /\ main no_alnum_above lower_unchanged (barred_fs [(lit "Sources", folder [])]) repo
     = ([], inl (OSError PermissionError)).
Proof. split_and!; reflexivity. Qed.

Example missing_root_sample :
  main no_alnum_above lower_unchanged sample_fs [lit "elsewhere"]
  = ([], inl (SystemExit (lit "Expected Swift sources at: /elsewhere/libs/hive/Sources"))).
Proof. reflexivity. Qed.

(** * Further properties of the code *)

(** ** The aggregation of a module *)

Lemma dedupe_from_sublist seen decls : dedupe_from seen decls `sublist_of` decls.
Proof.
  revert seen. induction decls as [|d ds IH]; intros seen; simpl; [constructor|].
  destruct (decide (key d ∈ seen)); [by apply sublist_cons|by apply sublist_skip].
Qed.

(** X1: the loop that removes duplicates keeps the declarations in the order
    in which they were read and only leaves some out. *)
Theorem dedupe_keeps_reading_order (decls : list Decl) :
  dedupe decls `sublist_of` decls
  /\ (length (aggregate decls) <= length decls)%nat.
Proof.
  assert (dedupe decls `sublist_of` decls) as Hsub.
  { rewrite dedupe_dedupe_from. apply dedupe_from_sublist. }
  split; [done|].
  rewrite aggregate_perm. by apply sublist_length.
Qed.

(** X2: the number printed as "Public decls (unique)" is the number of
    different (kind, name) pairs among the declarations read. *)
Theorem unique_count_is_number_of_keys (decls : list Decl) :
  length (aggregate decls) = size (list_to_set (key <$> decls) : gset (list N * list N)).
Proof.
  rewrite <- (length_fmap key).
  rewrite <- (size_list_to_set (C := gset (list N * list N)))
    by apply NoDup_keys_aggregate.
  f_equal. apply set_eq. intros k.
  rewrite !elem_of_list_to_set. apply keys_aggregate.
Qed.

Lemma dedupe_from_unique seen decls :
  NoDup (key <$> decls) -> (forall d, d ∈ decls -> key d ∉ seen) ->
  dedupe_from seen decls = decls.
Proof.
  revert seen. induction decls as [|d ds IH]; intros seen Hnd Hseen; [done|].
  rewrite fmap_cons in Hnd. apply NoDup_cons in Hnd as [Hd Hnd]. simpl.
  rewrite decide_False by (apply Hseen, list_elem_of_here).
  f_equal. apply IH; [done|]. intros d' Hd'.
  apply not_elem_of_union. split.
  - apply not_elem_of_singleton. intros Heq. apply Hd. rewrite <- Heq.
    by apply list_elem_of_fmap_2.
  - by apply Hseen, list_elem_of_further.
Qed.

Lemma sort_by_sorted_id {A K} (ltb : K -> K -> bool) (keyf : A -> K) l :
  StronglySorted (not_after ltb keyf) l -> sort_by ltb keyf l = l.
Proof.
  induction 1 as [|x l _ IH Hx]; [done|].
  simpl. fold (sort_by ltb keyf l). rewrite IH.
  destruct Hx as [|y l Hxy _]; [done|]. simpl.
  unfold not_after in Hxy. by rewrite Hxy.
Qed.

(** X3: aggregating a listing that is already aggregated changes nothing. *)
Theorem aggregate_idempotent (decls : list Decl) :
  aggregate (aggregate decls) = aggregate decls.
Proof.
  unfold aggregate at 1. rewrite dedupe_dedupe_from.
  rewrite dedupe_from_unique.
  - apply sort_by_sorted_id, sort_by_sorted;
      [apply key_ltb_irrefl|apply key_ltb_trans|apply key_ltb_total].
  - apply NoDup_keys_aggregate.
  - intros d _. apply not_elem_of_empty.
Qed.

(** ** The records of a file *)



(** ** A line has one reading *)

Lemma run_unique p u u' t t' :
  all_in p u -> all_in p u' -> stops p t -> stops p t' ->
  u ++ t = u' ++ t' -> u = u' /\ t = t'.
Proof.
  intros Hu. revert u'. induction Hu as [|x u Hx Hu IH]; intros u' Hu' Ht Ht' Heq.
  - destruct Hu' as [|y u' Hy Hu']; [done|].
    simpl in Heq. subst t. simpl in Ht. congruence.
  - destruct Hu' as [|y u' Hy Hu'].
    + simpl in Heq. subst t'. simpl in Ht'. congruence.
    + simpl in Heq. injection Heq as -> Heq.
      destruct (IH u' Hu' Ht Ht' Heq) as [-> ->]. done.
Qed.

Lemma kind_stops_space k t : k ∈ KINDS -> stops is_space (k ++ t).
Proof. intros Hk. each_kind Hk; reflexivity. Qed.

Lemma kind_not_final k t t' : k ∈ KINDS -> k ++ t = lit "final" ++ t' -> False.
Proof. intros Hk. each_kind Hk; intros Heq; vm_compute in Heq; discriminate. Qed.

Lemma kind_unique k k' t t' :
  k ∈ KINDS -> k' ∈ KINDS -> k ++ t = k' ++ t' -> k = k' /\ t = t'.
Proof.
  intros Hk Hk'. each_kind Hk; each_kind Hk'; intros Heq;
    first [ by apply app_inv_head in Heq | vm_compute in Heq; discriminate ].
Qed.

Lemma ident_start_stops_space c t : is_ident_start c = true -> stops is_space (c :: t).
Proof.
  unfold is_ident_start, is_upper_ascii, is_lower_ascii, is_space, in_range. simpl.
  intros H.
  repeat (apply orb_true_iff in H as [H|H]);
    rewrite ?andb_true_iff, ?N.leb_le, ?N.eqb_eq in H;
    repeat (apply orb_false_iff; split);
    rewrite ?andb_false_iff, ?N.leb_gt, ?N.eqb_neq; lia.
Qed.

Lemma qualified_kind_stops_space q k t :
  qualifier q -> k ∈ KINDS -> stops is_space (q ++ k ++ t).
Proof.
  intros [->|(ws & -> & _)] Hk; [by apply (kind_stops_space k t)|reflexivity].
Qed.

Lemma decl_parts_unique ua ln ws1 q k ws2 n rest ws1' q' k' ws2' n' rest' :
  decl_parts ua ln ws1 q k ws2 n rest ->
  decl_parts ua ln ws1' q' k' ws2' n' rest' ->
  ws1 = ws1' /\ q = q' /\ k = k' /\ ws2 = ws2' /\ n ++ rest = n' ++ rest'.
Proof.
  intros (-> & _ & Hws1 & Hq & Hk & _ & Hws2 & c & w & -> & Hc & _)
         (Heq & _ & Hws1' & Hq' & Hk' & _ & Hws2' & c' & w' & -> & Hc' & _).
  apply app_inv_head in Heq.
  apply (run_unique is_space) in Heq as [-> Heq];
    [|done|done|by apply qualified_kind_stops_space..].
  assert (q = q' /\ k ++ ws2 ++ (c :: w) ++ rest = k' ++ ws2' ++ (c' :: w') ++ rest')
    as [-> Heq'].
  { destruct Hq as [->|(ws & -> & _ & Hws)], Hq' as [->|(ws' & -> & _ & Hws')].
    - split; [done|exact Heq].
    - rewrite <- app_assoc in Heq. by apply (kind_not_final k) in Heq.
    - rewrite <- app_assoc in Heq. symmetry in Heq.
      by apply (kind_not_final k') in Heq.
    - rewrite <- !app_assoc in Heq. apply app_inv_head in Heq.
      apply (run_unique is_space) in Heq as [-> Heq];
        [done|done|done|by apply kind_stops_space..]. }
  apply kind_unique in Heq' as [-> Heq']; [|done..].
  apply (run_unique is_space) in Heq' as [-> Heq'];
    [done|done|done|by apply ident_start_stops_space..].
Qed.

Lemma decl_shape_parts ua ln k n :
  decl_shape ua ln k n <-> exists ws1 q ws2 rest, decl_parts ua ln ws1 q k ws2 n rest.
Proof.
  split.
  - intros (ws1 & q & ws2 & c & w & rest & ? & ? & ? & ? & ? & ? & ? & ? & ? & ?).
    exists ws1, q, ws2, rest. split_and!; try done. by exists c, w.
  - intros (ws1 & q & ws2 & rest & ? & ? & ? & ? & ? & ? & ? & c & w & ? & ? & ?).
    exists ws1, q, ws2, c, w, rest. by split_and!.
Qed.

(** A match gives the parts of the line, the identifier being the longest
    one. *)
Lemma re_match_decl_parts ua ln m :
  re_match (PUBLIC_DECL_RE ua) ln = Some m ->
  exists ws1 q ws2 rest,
    decl_parts ua ln ws1 q (group m 1) ws2 (group m 2) rest
    /\ stops (is_word ua) rest.
Proof.
  unfold re_match, PUBLIC_DECL_RE.
  intros (s0 & g0 & (_ & -> & ->)%matches_bol
    & (s1 & g1 & [-> ->]%matches_lit
    & (s2 & g2 & [(ws1 & -> & ? & ?) ->]%matches_plus
    & (s3 & g3 & [(q & ? & ->) ->]%matches_qualifier
    & (s4 & g4 & (k & ? & -> & ->)%matches_kind
    & (s5 & g5 & [(ws2 & -> & ? & ?) ->]%matches_plus
    & Hid)%rmatch_seq_sound)%rmatch_seq_sound)%rmatch_seq_sound
      )%rmatch_seq_sound)%rmatch_seq_sound)%rmatch_seq_sound.
  cbn [rmatch] in Hid. destruct s5 as [|c tail]; [done|].
  destruct (is_ident_start c) eqn:Hc; [|done].
  rewrite match_star_total in Hid by (by eexists). injection Hid as <-.
  destruct (after_run_suffix (is_word ua) tail) as (u & Htail & Hu).
  assert (stops (is_word ua) (after_run (is_word ua) tail)) as Hstop.
  { destruct (after_run (is_word ua) tail) eqn:Hrest; [done|].
    by eapply after_run_head. }
  revert Htail Hstop. generalize (after_run (is_word ua) tail) as r. intros r -> Hstop.
  exists ws1, q, ws2, r. unfold group.
  rewrite lookup_insert_eq, lookup_insert_ne, lookup_insert_eq by done.
  cbn [default from_option id].
  change (c :: u ++ r) with ((c :: u) ++ r).
  change (S (length (u ++ r))) with (length ((c :: u) ++ r)).
  rewrite take_captured.
  split; [|done]. split_and!; try done. by exists c, u.
Qed.

(** X6: a line of the shape has one reading: the record it gives has the
    keyword that stands in the line as its kind, and as its name the
    identifier that starts after the keyword, taken as far as it goes. *)
Theorem line_record_is_determined (ua : N -> bool) (p : list (list N)) (i : nat)
    (ln : list N) (decls : list Decl) (k n : list N) :
  decl_shape ua ln k n ->
  exists n', scan_step ua p decls (i, ln)
             = decls ++ [{| kind := k; name := n'; file := p; line := i |}]
             /\ n `prefix_of` n'.
Proof.
  intros Hshape.
  destruct (re_match_decl_complete _ _ _ _ Hshape) as [m Hm].
  destruct (re_match_decl_parts _ _ _ Hm) as (ws1' & q' & ws2' & rest' & Hparts' & Hstop).
  apply decl_shape_parts in Hshape as (ws1 & q & ws2 & rest & Hparts).
  destruct (decl_parts_unique _ _ _ _ _ _ _ _ _ _ _ _ _ _ Hparts Hparts')
    as (_ & _ & Hk & _ & Heq).
  exists (group m 2). split.
  - unfold scan_step. simpl. by rewrite Hm, Hk.
  - destruct Hparts as (_ & _ & _ & _ & _ & _ & _ & c & w & Hn & _ & Hw).
    destruct Hparts' as (_ & _ & _ & _ & _ & _ & _ & c' & w' & Hn' & _ & _).
    apply app_eq_inv in Heq as [(e & Hne & Hrest)|(e & Hne & _)]; [|by exists e].
    destruct e as [|x e]; [rewrite app_nil_r in Hne; by rewrite Hne|].
    subst rest'. simpl in Hstop.
    assert (is_word ua x = true) as Hx; [|congruence].
    rewrite Hn, Hn' in Hne. injection Hne as _ Hw'. subst w.
    apply Forall_app in Hw as [_ Hw]. by apply Forall_cons in Hw as [? _].
Qed.

(** X6 on a line: [run] is read whole although [ru] fits the shape too. *)
Lemma line_record_is_determined_sample :
  exists n', scan_step no_alnum_above [lit "B.swift"] [] (7%nat, lit "public func run() {")
             = [] ++ [{| kind := lit "func"; name := n'; file := [lit "B.swift"]; line := 7 |}]
             /\ lit "ru" `prefix_of` n'.
Proof.
  apply line_record_is_determined.
  exists (lit " "), [], (lit " "), 114, (lit "u"), (lit "n() {").
  split_and!; try done; repeat constructor.
Defined.

(** ** The records of a file, line by line *)

Lemma scan_text_record ua p text d :
  d ∈ scan_text ua p text ->
  file d = p
  /\ (1 <= line d <= length (splitlines text))%nat
  /\ exists ln ws1 q ws2 rest,
       splitlines text !! (line d - 1)%nat = Some ln
       /\ decl_parts ua ln ws1 q (kind d) ws2 (name d) rest
       /\ stops (is_word ua) rest.
Proof.
  intros Hd. rewrite scan_text_omap in Hd.
  apply elem_of_scan_lines in Hd as (i & ln & m & Hln & Hm & ->). simpl.
  split_and!; [done|lia|by apply lookup_lt_Some in Hln|].
  destruct (re_match_decl_parts _ _ _ Hm) as (ws1 & q & ws2 & rest & Hparts & Hstop).
  exists ln, ws1, q, ws2, rest. rewrite Nat.sub_0_r. done.
Qed.

(** X4: every record of a file carries the path that was scanned and the
    number of one of its lines; that line is [public], white space, the
    qualifier if any, the kind of the record, white space, the name of the
    record and a rest, and the rest is empty or starts with a character that
    is not a word character: the name is the identifier after the keyword,
    taken as far as it goes. *)
Theorem record_name_is_longest_identifier (ua : N -> bool) (p : list (list N))
    (text : list N) :
  Forall (fun d =>
            file d = p
            /\ (1 <= line d <= length (splitlines text))%nat
            /\ exists ln ws1 q ws2 rest,
                 splitlines text !! (line d - 1)%nat = Some ln
                 /\ ln = lit "public" ++ ws1 ++ q ++ kind d ++ ws2 ++ name d ++ rest
                 /\ decl_parts ua ln ws1 q (kind d) ws2 (name d) rest
                 /\ match rest with [] => True | c :: _ => is_word ua c = false end)
         (scan_text ua p text).
Proof.
  apply Forall_forall. intros d Hd.
  destruct (scan_text_record ua p text d Hd)
    as (Hfile & Hline & ln & ws1 & q & ws2 & rest & Hln & Hparts & Hstop).
  split_and!; [done|lia|lia|].
  exists ln, ws1, q, ws2, rest. split_and!; [done| |done|done].
  by destruct Hparts as [-> _].
Qed.


(** ** Discovery, further *)

Lemma lower_from_ascii ul before s :
  Forall (fun c => c < 128) s -> lower_from ul before s = ascii_lower <$> s.
Proof.
  intros Hs. revert before. induction Hs as [|c s Hc _ IH]; intros before; [done|].
  cbn [lower_from]. apply N.ltb_lt in Hc. change 0x80 with 128. rewrite Hc.
  by rewrite IH.
Qed.

(** X7: on paths made of ASCII characters the exclusion does not depend on
    the case tables of Unicode: a path is left out exactly when one of its
    segments, its letters A-Z taken as a-z, is [.build] or [.swiftpm]. *)
Theorem ascii_paths_skipped_by_ascii_case (ul : list N -> N -> list N -> list N)
    (p : list (list N)) :
  Forall (Forall (fun c => c < 128)) p ->
  (skipped ul p = true <->
   exists seg, seg ∈ p
     /\ (ascii_lower <$> seg = lit ".build" \/ ascii_lower <$> seg = lit ".swiftpm")).
Proof.
  intros Hascii. rewrite skipped_iff. unfold parts. rewrite Forall_forall in Hascii.
  split.
  - intros (seg & [->|Hseg]%elem_of_cons & Hlow).
    + vm_compute in Hlow. destruct Hlow; discriminate.
    + exists seg. split; [done|].
      unfold str_lower in Hlow. by rewrite lower_from_ascii in Hlow by auto.
  - intros (seg & Hseg & Hlow). exists seg. split; [by apply list_elem_of_further|].
    unfold str_lower. by rewrite lower_from_ascii by auto.
Qed.

(** X7 on a path through [.SwiftPM]. *)
Lemma ascii_paths_skipped_sample :
  skipped lower_unchanged [lit "repo"; lit ".SwiftPM"; lit "x.swift"] = true <->
  exists seg, seg ∈ [lit "repo"; lit ".SwiftPM"; lit "x.swift"]
    /\ (ascii_lower <$> seg = lit ".build" \/ ascii_lower <$> seg = lit ".swiftpm").
Proof.
  apply ascii_paths_skipped_by_ascii_case.
  apply (bool_decide_unpack _). by vm_compute.
Defined.

(** X8: the test looks at every part of a path, those of the directory that
    is walked included: when the module directory itself lies at or below a
    directory named [.build] or [.swiftpm], up to case, no file of it is
    yielded, whatever the walk finds. *)
Theorem buried_module_yields_nothing (ul : list N -> N -> list N -> list N)
    (fs : node) (dir : list (list N)) :
  (exists seg, seg ∈ parts dir
     /\ (str_lower ul seg = lit ".build" \/ str_lower ul seg = lit ".swiftpm")) ->
  forall found, rglob fs dir = inr found ->
  iter_swift_files ul fs dir = inr [].
Proof.
  intros (seg & Hseg & Hlow) found Hfound.
  apply iter_swift_files_inr. exists found. split; [done|]. symmetry.
  apply elem_of_nil_inv. intros p [Hskip Hp]%list_elem_of_filter.
  destruct (rglob_below _ _ _ _ Hfound Hp) as (rel & _ & ->).
  assert (skipped ul (dir ++ rel) = true) as Hyes; [|congruence].
  apply skipped_iff. exists seg. split; [|done].
  unfold parts in *. apply elem_of_cons in Hseg as [->|Hseg].
  - apply list_elem_of_here.
  - apply list_elem_of_further, elem_of_app. by left.
Qed.

(** X8 on the sample checkout below [.build]: the walk finds the file of
    ModB and the module yields nothing. *)
Lemma buried_module_sample :
  rglob buried_fs (sources_of buried_repo ++ [lit "ModB"])
  = inr [sources_of buried_repo ++ [lit "ModB"; lit "B.swift"]]
  /\ iter_swift_files lower_unchanged buried_fs (sources_of buried_repo ++ [lit "ModB"])
     = inr [].
Proof.
  split; [reflexivity|].
  eapply (buried_module_yields_nothing lower_unchanged buried_fs
            (sources_of buried_repo ++ [lit "ModB"])).
  - exists (lit ".build"). split.
    + apply (bool_decide_unpack _). by vm_compute.
    + left. reflexivity.
  - reflexivity.
Defined.








(** ** The run, further *)

Lemma scan_file_inl ua fs f e : scan_file ua fs f = inl e -> exists oe, e = OSError oe.
Proof.
  unfold scan_file.
  destruct (read_text fs f); [|destruct (read_text_replace fs f)|];
    intros; simplify_eq; by eexists.
Qed.

Lemma scan_files_first_failure ua fs files1 f files2 acc e :
  Forall (fun f' => readable fs f' = true) files1 ->
  scan_file ua fs f = inl e ->
  scan_files ua fs (files1 ++ f :: files2) acc = inl e.
Proof.
  intros Hread Hf. revert acc. induction Hread as [|f' files1 Hf' _ IH]; intros acc; simpl.
  - by rewrite Hf.
  - apply (readable_scan_file ua) in Hf' as [ds ->]. apply IH.
Qed.


(** X10: the files of a module are read in the order of discovery and the
    first one that cannot be read ends the scan with its own error,
    whatever the files after it hold. *)
Theorem first_unreadable_file_decides (ua : N -> bool) (fs : node)
    (files1 files2 : list (list (list N))) (f : list (list N))
    (acc : list Decl) (e : exn) :
  Forall (fun f' => readable fs f' = true) files1 ->
  scan_file ua fs f = inl e ->
  scan_files ua fs (files1 ++ f :: files2) acc = inl e
  /\ exists oe, e = OSError oe.
Proof.
  intros Hread Hf. split; [by apply scan_files_first_failure|by eapply scan_file_inl].
Qed.

(** X10 on three paths: a readable file, one that is a directory, and one
    that does not exist. *)
Lemma first_unreadable_file_sample :
  scan_files no_alnum_above sample_fs
    ([sources_of repo ++ [lit "ModB"; lit "B.swift"]]
     ++ (sources_of repo ++ [lit "ModA"]) :: [[lit "nowhere"]]) []
  = inl (OSError IsADirectoryError)
  /\ exists oe, OSError IsADirectoryError = OSError oe.
Proof.
  apply first_unreadable_file_decides.
  - apply (bool_decide_unpack _). by vm_compute.
  - reflexivity.
Defined.

Lemma for_each_inl {A} (body : A -> M unit) xs1 x xs2 e :
  Forall (fun y => (body y).2 = inr tt) xs1 ->
  (body x).2 = inl e ->
  for_each (xs1 ++ x :: xs2) body
  = (concat ((fun y => (body y).1) <$> xs1) ++ (body x).1, inl e).
Proof.
  intros Hok Hx. induction Hok as [|y xs1 Hy _ IH]; simpl.
  - destruct (body x) as [out r]. simpl in Hx. subst r. done.
  - destruct (body y) as [out r] eqn:Hb. simpl in Hy. subst r.
    rewrite bind_inr. fold (@for_each A). rewrite IH. simpl. by rewrite app_assoc.
Qed.


Section RunFurther.
Variable ua : N -> bool.
Variable ul : list N -> N -> list N -> list N.


Lemma main_file fs root f :
  resolve fs (sources_of root) = Found (File f) ->
  path_exists fs (sources_of root) = inr true
  /\ main ua ul fs root = ([], inl (OSError NotADirectoryError)).
Proof.
  intros Hsrc.
  assert (path_exists fs (sources_of root) = inr true) as Hex.
  { unfold path_exists, stat. by rewrite Hsrc. }
  split; [done|]. apply main_no_modules; [done|].
  unfold modules_of, iterdir, stat. by rewrite Hsrc.
Qed.

Lemma is_dir_exists fs p : is_dir fs p = inr true -> path_exists fs p = inr true.
Proof.
  unfold is_dir, path_exists.
  destruct (stat fs p) as [e|[f|r x es]]; [by destruct (ignore_error e)|done..].
Qed.

End RunFurther.

(** X11: when the sources root exists and is not a directory, the run ends
    with the error of listing it, before anything is printed, and the
    status is 1. *)
Theorem sources_root_that_is_a_file (ua : N -> bool) (ul : list N -> N -> list N -> list N)
    (fs : node) (root : list (list N)) (f : file_state) :
  resolve fs (sources_of root) = Found (File f) ->
  path_exists fs (sources_of root) = inr true
  /\ main ua ul fs root = ([], inl (OSError NotADirectoryError))
  /\ exit_status (main ua ul fs root).2 = 1%nat.
Proof.
  intros Hsrc. destruct (main_file ua ul fs root f Hsrc) as [Hex Hmain].
  rewrite Hmain. by split_and!.
Qed.

(** X11 on the checkout in which [Sources] is a file. *)
Lemma sources_root_that_is_a_file_sample :
  path_exists flat_fs (sources_of repo) = inr true
  /\ main no_alnum_above lower_unchanged flat_fs repo
     = ([], inl (OSError NotADirectoryError))
  /\ exit_status (main no_alnum_above lower_unchanged flat_fs repo).2 = 1%nat.
Proof.
  apply (sources_root_that_is_a_file _ _ flat_fs repo
           {| strict_read := ReadOk []; replace_read := inr [] |}).
  reflexivity.
Defined.


(** X13: when the scan of a module fails, what has been printed is the
    head of the report and the whole report of every module before it in
    the order of names; of the failing module and of those after it nothing
    is printed, and the run ends with the error of that scan. *)
Theorem failing_module_cuts_the_report (ua : N -> bool)
    (ul : list N -> N -> list N -> list N) (fs : node) (root : list (list N))
    (before after : list (list (list N))) (m : list (list N))
    (files : list (list (list N))) (e : exn) :
  is_dir fs (sources_of root) = inr true ->
  module_dirs fs root = before ++ m :: after ->
  Forall (fun m' => (render_module ua ul fs root m').2 = inr tt) before ->
  iter_swift_files ul fs m = inr files ->
  scan_files ua fs files [] = inl e ->
  main ua ul fs root
  = (report_head root
     ++ concat ((fun m' => (render_module ua ul fs root m').1) <$> before),
     inl e)
  /\ exit_status (main ua ul fs root).2 = 1%nat.
Proof.
  intros Hdir Hms Hok Hfiles Hscan.
  assert (modules_of fs (sources_of root) = inr (before ++ m :: after)) as Hmods.
  { unfold module_dirs in Hms.
    destruct (modules_of fs (sources_of root)) as [e'|modules]; [|by rewrite Hms].
    by destruct before. }
  pose proof (render_module_inl ua ul fs root m files e Hfiles Hscan) as Hm.
  rewrite (main_modules ua ul fs root _ (is_dir_exists _ _ Hdir) Hmods).
  rewrite (for_each_inl _ before m after e Hok) by (by rewrite Hm).
  rewrite Hm. simpl. by rewrite app_nil_r.
Qed.

(** X13 on three modules of which the second cannot be read. *)
Lemma failing_module_sample :
  main no_alnum_above lower_unchanged half_locked_fs repo
  = (report_head repo
     ++ concat ((fun m' => (render_module no_alnum_above lower_unchanged
                              half_locked_fs repo m').1)
                <$> [sources_of repo ++ [lit "ModA"]]),
     inl (OSError PermissionError))
  /\ exit_status (main no_alnum_above lower_unchanged half_locked_fs repo).2 = 1%nat.
Proof.
  apply (failing_module_cuts_the_report _ _ half_locked_fs repo
           [sources_of repo ++ [lit "ModA"]]
           [sources_of repo ++ [lit "ModC"]]
           (sources_of repo ++ [lit "ModB"])
           [sources_of repo ++ [lit "ModB"; lit "B.swift"]]).
  - reflexivity.
  - reflexivity.
  - repeat constructor.
  - reflexivity.
  - reflexivity.
Defined.

Lemma resolve_child_searchable r x es nm c :
  resolve (Dir r x es) [nm] = Found c -> x = true.
Proof. simpl. by destruct x. Qed.

(** X14: the modules of a report are the directories that stand directly
    in the sources root, files there being passed over, and they come in
    ascending order of their names. *)
Theorem modules_are_subdirectories_by_name (fs : node) (root : list (list N)) :
  (forall m, m ∈ module_dirs fs root <->
     is_dir fs m = inr true
     /\ exists x es nm c, resolve fs (sources_of root) = Found (Dir true x es)
          /\ (nm, c) ∈ es /\ m = sources_of root ++ [nm])
  /\ StronglySorted (fun a b => str_ltb (base_name b) (base_name a) = false)
                    (module_dirs fs root).
Proof.
  split.
  - intros m. split.
    + intros Hm. destruct (module_dirs_elem _ _ _ Hm) as [Hdir _]. split; [done|].
      unfold module_dirs, modules_of, iterdir, stat in Hm.
      destruct (resolve fs (sources_of root)) as [[f|[|] x es]| | |] eqn:Hsrc;
        try (by apply elem_of_nil in Hm).
      destruct (keep_dirs fs _) as [e|dirs] eqn:Hkeep; [by apply elem_of_nil in Hm|].
      rewrite sort_by_perm in Hm.
      apply (keep_dirs_elem _ _ _ Hkeep) in Hm as [([nm c] & -> & Hin)%list_elem_of_fmap _].
      by exists x, es, nm, c.
    + intros (Hdir & x & es & nm & c & Hsrc & Hin & ->).
      assert (x = true) as ->.
      { unfold is_dir, stat in Hdir. rewrite resolve_app, Hsrc in Hdir.
        destruct (resolve (Dir true x es) [nm]) as [n| | |] eqn:Hn; try done.
        by eapply resolve_child_searchable. }
      destruct (keep_dirs_searchable fs (sources_of root) true es es Hsrc) as [dirs Hkeep].
      { intros e He. rewrite resolve_app, Hsrc. by apply resolve_entry. }
      unfold module_dirs, modules_of, iterdir, stat. rewrite Hsrc, Hkeep, sort_by_perm.
      apply (keep_dirs_elem _ _ _ Hkeep). split; [|done].
      apply list_elem_of_fmap. by exists (nm, c).
  - unfold module_dirs, modules_of.
    destruct (iterdir fs (sources_of root)); [constructor|].
    destruct (keep_dirs fs _); [constructor|].
    apply (sort_by_sorted str_ltb base_name);
      [apply str_ltb_irrefl|apply str_ltb_trans|apply str_ltb_total].
Qed.

(** X15: the place shown for a declaration is the path of its file below
    the root that was given, so for a module [nm] it starts with
    [libs/hive/Sources/nm/], and the number of its line. *)
Theorem entries_show_paths_below_the_root (ua : N -> bool)
    (ul : list N -> N -> list N -> list N) (fs : node) (root : list (list N))
    (nm : list N) (files : list (list (list N))) (decls : list Decl) :
  iter_swift_files ul fs (sources_of root ++ [nm]) = inr files ->
  scan_files ua fs files [] = inr decls ->
  Forall (fun d =>
            exists rel, rel <> []
              /\ file d = root ++ [lit "libs"; lit "hive"; lit "Sources"; nm] ++ rel
              /\ entry_of root d
                 = lit "- `" ++ kind d ++ lit " " ++ name d ++ lit "` ("
                   ++ lit "libs/hive/Sources/" ++ nm ++ lit "/" ++ join (lit "/") rel
                   ++ lit ":" ++ str_of_nat (line d) ++ lit ")")
         (aggregate decls).
Proof.
  intros (found & Hfound & ->)%iter_swift_files_inr Hscan. apply Forall_forall.
  intros d Hd%elem_of_aggregate%first_with_key_elem.
  pose proof (scan_files_file ua fs _ _ d Hscan Hd) as Hfile.
  apply list_elem_of_filter in Hfile as [_ Hfile].
  apply (rglob_below _ _ _ _ Hfound) in Hfile as (rel & Hne & Hrel).
  exists rel. split; [done|].
  assert (file d = root ++ [lit "libs"; lit "hive"; lit "Sources"; nm] ++ rel) as Hpath.
  { rewrite Hrel. unfold sources_of. by rewrite <- !app_assoc. }
  split; [done|].
  unfold entry_of, entry_text. rewrite Hpath, relative_to_app. cbn [default from_option id].
  destruct rel as [|r rel]; [done|].
  unfold rel_str. cbn [app join]. by rewrite <- !app_assoc.
Qed.

(** X15 on the module ModA of the sample checkout. *)
Lemma entries_show_paths_sample :
  Forall (fun d =>
            exists rel, rel <> []
              /\ file d = repo ++ [lit "libs"; lit "hive"; lit "Sources"; lit "ModA"] ++ rel
              /\ entry_of repo d
                 = lit "- `" ++ kind d ++ lit " " ++ name d ++ lit "` ("
                   ++ lit "libs/hive/Sources/" ++ lit "ModA" ++ lit "/"
                   ++ join (lit "/") rel
                   ++ lit ":" ++ str_of_nat (line d) ++ lit ")")
         (aggregate
            [{| kind := lit "struct"; name := lit "Widget";
                file := sources_of repo ++ [lit "ModA"; lit "A.swift"]; line := 3 |}]).
Proof.
  apply (entries_show_paths_below_the_root no_alnum_above lower_unchanged sample_fs repo
           (lit "ModA") [sources_of repo ++ [lit "ModA"; lit "A.swift"]]).
  - reflexivity.
  - reflexivity.
Defined.
